(** * Loading embeddings into pgvector: the notebook's pipeline and queries

    A shallow embedding of [examples/pgvector/pgvector.ipynb]: the ingestion
    loop (cell 9), the embedding loop (cell 11), the construction of the rows
    (cell 12), the bulk insert (cell 13) and the two similarity queries with
    their print loops (cells 16 and 18).

    Conventions.
    - PostgreSQL [double precision] values and the coordinates of a pgvector
      [vector] are idealised as real numbers ([R]); rounding is not modelled.
    - A [DateTime] value is a count of microseconds, as PostgreSQL stores it.
    - A nullable column is an [option]; [None] is SQL NULL / Python [None].
    - The external collaborators ([os.listdir], [partition_email],
      [OpenAIEmbeddings.embed_query], the clock behind [NOW()]) are the
      variables of the section [Notebook]. *)

From Stdlib Require Import List String Ascii ZArith Reals Lra Lia Bool.
From Stdlib Require Import Permutation Sorted.
Import ListNotations.

Local Open Scope list_scope.

(* ================================================================== *)
(** * Part I: definitions *)
(* ================================================================== *)

(** ** Constants of the notebook *)

(** Cell 2: [ADA_TOKEN_COUNT = 1536]. *)
Definition ADA_TOKEN_COUNT : nat := 1536.

(** Cell 8: [EXAMPLE_DOCS_DIRECTORY = "../../example-docs"]. *)
Definition EXAMPLE_DOCS_DIRECTORY : string := "../../example-docs".

(** ** The Python string and path helpers used by the ingestion loop *)

Module Py.

(** [s.startswith(p)]. *)
Definition startswith (s p : string) : bool := String.prefix p s.

(** [s.endswith(suffix)]: the last [len(suffix)] characters of [s] are
    [suffix]. *)
Definition endswith (s suffix : string) : bool :=
  let n := String.length s in
  let m := String.length suffix in
  (m <=? n)%nat && String.eqb (substring (n - m) m s) suffix.

(** [os.path.join(a, b)] for two components (posixpath). *)
Definition path_join (a b : string) : string :=
  if startswith b "/" then b
  else if (String.eqb a "" || endswith a "/")%bool then (a ++ b)%string
  else (a ++ "/" ++ b)%string.

(** What [print] and an f-string receive. *)
Inductive value : Type :=
| VInt (z : Z)
| VNone
| VStr (s : string)
| VFloat (x : R).

End Py.

(** ** Data model *)

(** A pgvector [vector] / the list of floats [embed_query] returns. *)
Definition vector : Type := list R.

(** The number of coordinates of a vector. *)
Definition dim (v : vector) : nat := List.length v.

(** A [DateTime]: microseconds since the epoch. *)
Definition timestamp : Type := Z.

(** The metadata of an element produced by the partitioner; the notebook
    reads [filename], [get_date()], [sent_to], [sent_from] and [subject]. *)
Record ElementMetadata : Type := mkMetadata {
  md_filename : option string;
  md_date : option timestamp;      (* what [get_date()] returns *)
  md_sent_to : option (list string);
  md_sent_from : option (list string);
  md_subject : option string
}.

(** An element as [partition_email] returns it. *)
Record DocElement : Type := mkDocElement {
  doc_text : string;
  doc_category : string;
  doc_metadata : ElementMetadata
}.

(** An element after cell 11 has set its [embedding] attribute. *)
Record EmbeddedElement : Type := mkEmbedded {
  element : DocElement;
  element_embedding : vector
}.

(** Cell 4: the mapped class [Element] (table [unstructured_elements]).
    [id] is [None] on a freshly constructed object and is set when the row
    is inserted. Cell 11 gives every element an embedding and the
    partitioner a text and a category, so these three carry no NULL. *)
Record Element : Type := mkElement {
  id : option Z;
  embedding : vector;
  text : string;
  category : string;
  filename : option string;
  date : option timestamp;
  sent_to : option (list string);
  sent_from : option (list string);
  subject : option string
}.

Definition set_id (e : Element) (key : Z) : Element :=
  {| id := Some key;
     embedding := embedding e;
     text := text e;
     category := category e;
     filename := filename e;
     date := date e;
     sent_to := sent_to e;
     sent_from := sent_from e;
     subject := subject e |}.

(** ** Cell 9: ingestion *)

(** The loop's state: the list [elements] and, as a trace of the effect, the
    file names handed to the partitioner so far. *)
Record IngestState : Type := mkIngest {
  elements : list DocElement;
  partitioned : list string
}.

Section Ingestion.

(** [ext] is the literal [".eml"] and [dir] is [EXAMPLE_DOCS_DIRECTORY] in
    the notebook. *)
Variable ext : string.
Variable dir : string.
Variable partition_email : string -> list DocElement.

(** One iteration of [for f in os.listdir(dir)]. *)
Definition ingest_step (st : IngestState) (f : string) : IngestState :=
  if negb (Py.endswith f ext) then st            (* continue *)
  else
    let filename := Py.path_join dir f in
    {| elements := elements st ++ partition_email filename;   (* extend *)
       partitioned := partitioned st ++ [filename] |}.

Definition ingest (listing : list string) : IngestState :=
  fold_left ingest_step listing {| elements := []; partitioned := [] |}.

End Ingestion.

(** ** Cells 11 and 12: embedding and row construction *)

Section Embedding.

Variable embed_query : string -> vector.

(** [for element in elements: element.embedding = embed_query(element.text)]. *)
Definition embed_elements (els : list DocElement) : list EmbeddedElement :=
  map (fun el => {| element := el;
                    element_embedding := embed_query (doc_text el) |}) els.

End Embedding.

(** The constructor call of cell 12. *)
Definition new_Element (el : EmbeddedElement) : Element :=
  let md := doc_metadata (element el) in
  {| id := None;
     text := doc_text (element el);
     category := doc_category (element el);
     embedding := element_embedding el;
     filename := md_filename md;
     date := md_date md;
     sent_to := md_sent_to md;
     sent_from := md_sent_from md;
     subject := md_subject md |}.

Definition items_to_add (els : list EmbeddedElement) : list Element :=
  fold_left (fun items el => items ++ [new_Element el]) els [].

(** ** Cell 13: the backing store *)

Inductive StoreError : Type :=
| DimensionMismatch (expected got : nat)
| UniqueViolation (key : Z).

(** The table [unstructured_elements] together with the sequence that feeds
    its integer primary key. *)
Record Store : Type := mkStore {
  rows : list Element;
  next_id : Z
}.

(** The table right after [Base.metadata.create_all(engine)] on a fresh
    database. *)
Definition empty_store : Store := {| rows := []; next_id := 1 |}.

Definition has_id (key : Z) (r : Element) : bool :=
  match id r with
  | Some k => (k =? key)%Z
  | None => false
  end.

(** Modelled from the spec: the INSERT of one row, which the notebook reaches
    only through SQLAlchemy and PostgreSQL (no code of it is in the notebook).
    The column type [Vector(ADA_TOKEN_COUNT)] admits only embeddings of that
    dimension ("inserting a vector of wrong dimensionality fails with a store
    error"); [id] is the primary key, "unique, assigned by the store on
    insert": the next value of the sequence when the object carries none (as
    every object the notebook builds), the object's own otherwise, and in
    both cases refused when a stored row has that key already. *)
Definition insert_row (e : Element) (s : Store) : StoreError + Store :=
  if negb (dim (embedding e) =? ADA_TOKEN_COUNT)%nat then
    inl (DimensionMismatch ADA_TOKEN_COUNT (dim (embedding e)))
  else
    let '(key, next) :=
      match id e with
      | Some k => (k, next_id s)
      | None => (next_id s, (next_id s + 1)%Z)
      end in
    if existsb (has_id key) (rows s) then inl (UniqueViolation key)
    else inr {| rows := rows s ++ [set_id e key]; next_id := next |}.

(** Modelled from the spec: the flush of the pending objects, in the order
    they were added, inside one transaction; the first error aborts it. *)
Fixpoint flush (pending : list Element) (s : Store) : StoreError + Store :=
  match pending with
  | [] => inr s
  | e :: rest =>
      match insert_row e s with
      | inl err => inl err
      | inr s' => flush rest s'
      end
  end.

Inductive CommitResult : Type :=
| Committed
| Failed (err : StoreError).

(** Modelled from the spec: [session.add_all(items); session.commit()], the
    spec's [insert_all(elements) -> committed | failed]: "a run either
    persists a complete, embedded batch or persists nothing". The result is
    the store after the call and the outcome. *)
Definition insert_all (items : list Element) (s : Store) : Store * CommitResult :=
  match flush items s with
  | inr s' => (s', Committed)
  | inl err => (s, Failed err)
  end.

(** Modelled from the spec: retrieval of a stored row by its id (the
    notebook never reads a row back by id). *)
Definition get (s : Store) (key : Z) : option Element :=
  find (has_id key) (rows s).

(** The stores a sequence of bulk inserts can produce from the empty table. *)
Inductive reachable : Store -> Prop :=
| reachable_empty : reachable empty_store
| reachable_insert_all (items : list Element) (s : Store) :
    reachable s -> reachable (fst (insert_all items s)).

(** Every stored embedding has the dimension of the column. *)
Definition store_typed (s : Store) : Prop :=
  Forall (fun r => dim (embedding r) = ADA_TOKEN_COUNT) (rows s).

(** The sequence is ahead of every key in the table: the state of a table
    whose keys all came from the sequence. *)
Definition sequence_ahead (s : Store) : Prop :=
  Forall (fun r => exists k, id r = Some k /\ (k < next_id s)%Z) (rows s).

(** The stored row has the content of the object handed to the insert: all
    columns but [id]. *)
Definition same_content (r e : Element) : Prop :=
  text r = text e
  /\ category r = category e
  /\ filename r = filename e
  /\ subject r = subject e
  /\ date r = date e
  /\ sent_to r = sent_to e
  /\ sent_from r = sent_from e
  /\ embedding r = embedding e.

(** The rows a flush of new objects appends: the objects in order, keyed
    from [first] on. *)
Fixpoint assign_ids (items : list Element) (first : Z) : list Element :=
  match items with
  | [] => []
  | e :: rest => set_id e first :: assign_ids rest (first + 1)
  end.

(** The primary key: every row has a key and no two rows have the same. *)
Definition keys_unique (s : Store) : Prop :=
  NoDup (map id (rows s)) /\ Forall (fun r => id r <> None) (rows s).

(** ** ORDER BY and LIMIT *)

Definition R_leb (x y : R) : bool := if Rle_dec x y then true else false.

Section OrderBy.

Context {A : Type}.

(** [precedes a b = true]: the ordering allows [a] before [b]. *)
Variable precedes : A -> A -> bool.

Fixpoint insert_sorted (a : A) (l : list A) : list A :=
  match l with
  | [] => [a]
  | b :: l' => if precedes a b then a :: b :: l' else b :: insert_sorted a l'
  end.

(** [ORDER BY]: the rows sorted by [precedes].
    Modelled from the spec: the order among rows with equal keys, the one
    thing the query leaves open (PostgreSQL promises none). The spec fixes it
    as "ties broken by stable input order", and so does this sort: of two
    rows with equal keys the one stored first comes first. *)
Definition order_by (l : list A) : list A := fold_right insert_sorted [] l.

End OrderBy.

(** [ORDER BY key] (ascending) over a real-valued key. *)
Definition ascending {A : Type} (key : A -> R) (a b : A) : bool :=
  R_leb (key a) (key b).

(** [ORDER BY key DESC] over a nullable real-valued key: PostgreSQL puts the
    NULLs first in a descending order. *)
Definition desc_nulls_first (x y : option R) : bool :=
  match x, y with
  | None, _ => true
  | Some _, None => false
  | Some a, Some b => R_leb b a
  end.

Definition descending {A : Type} (key : A -> option R) (a b : A) : bool :=
  desc_nulls_first (key a) (key b).

(** ** The distance operator *)

(** The sum of the squared coordinate differences. pgvector refuses operands
    of different dimensions; all rows of the table have the dimension of the
    column, and the sum is taken over the common coordinates. *)
Fixpoint sum_sq_diff (u v : vector) : R :=
  match u, v with
  | x :: u', y :: v' => ((x - y) * (x - y) + sum_sq_diff u' v')%R
  | _, _ => 0%R
  end.

(** [Element.embedding.l2_distance(vector)], the operator [<->]. *)
Definition l2_distance (u v : vector) : R := sqrt (sum_sq_diff u v).

(** ** Cell 16: the query conditioned on a metadata field *)

(** [session.query(Element).filter(Element.category == c)
      .order_by(Element.embedding.l2_distance(v)).limit(K)];
    the notebook has [c = "NarrativeText"] and [K = 5]. *)
Definition filtered_query (c : string) (v : vector) (K : nat) (s : Store)
  : list Element :=
  firstn K
    (order_by (ascending (fun e => l2_distance (embedding e) v))
       (filter (fun e => String.eqb (category e) c) (rows s))).

(** [for element in query: print(element.id, element.text)]. *)
Definition py_id (i : option Z) : Py.value :=
  match i with
  | Some z => Py.VInt z
  | None => Py.VNone
  end.

Definition print_filtered (query : list Element) (stdout : list (list Py.value))
  : list (list Py.value) :=
  fold_left (fun out e => out ++ [[py_id (id e); Py.VStr (text e)]]) query stdout.

(** ** Cell 18: the query with a decayed score *)

Definition USECS_PER_DAY : Z := 86400000000.

(** [EXTRACT(DAY FROM interval)] for the difference of two timestamps: the
    whole days of the interval, the rest (hours and below) dropped, so the
    division rounds toward zero for either sign. *)
Definition extract_day (interval : Z) : Z := Z.quot interval USECS_PER_DAY.

(** [func.exp(text("-{decay_rate} * EXTRACT(DAY FROM (NOW() - date))")
              * Element.embedding.l2_distance(vector))]
    on a row whose age in days is [days] and whose distance is [dist]. *)
Definition decay_expr (decay_rate : R) (days : Z) (dist : R) : R :=
  exp ((- decay_rate * IZR days) * dist).

(** The labelled column [decay_score] of a row; NULL when [date] is. *)
Definition decay_score_of (decay_rate : R) (now : timestamp) (v : vector)
  (e : Element) : option R :=
  match date e with
  | None => None
  | Some d =>
      Some (decay_expr decay_rate (extract_day (now - d))
              (l2_distance (embedding e) v))
  end.

(** A result row of [session.query(Element, Element.text, ... .label("decay_score"))]. *)
Record ScoredRow : Type := mkScored {
  row_element : Element;
  row_text : string;
  decay_score : option R
}.

Definition select_scored (decay_rate : R) (now : timestamp) (v : vector)
  (e : Element) : ScoredRow :=
  {| row_element := e;
     row_text := text e;
     decay_score := decay_score_of decay_rate now v e |}.

(** [session.query(...).order_by(text("decay_score DESC")).limit(K)]. *)
Definition decayed_query (decay_rate : R) (now : timestamp) (v : vector)
  (K : nat) (s : Store) : list ScoredRow :=
  firstn K
    (order_by (descending decay_score)
       (map (select_scored decay_rate now v) (rows s))).

(** [for element in query: print(f"{element.decay_score} -  {element.text}")]. *)
Definition py_float (x : option R) : Py.value :=
  match x with
  | Some r => Py.VFloat r
  | None => Py.VNone
  end.

Definition print_decayed (query : list ScoredRow) (stdout : list (list Py.value))
  : list (list Py.value) :=
  fold_left (fun out r => out ++ [[py_float (decay_score r); Py.VStr (row_text r)]])
    query stdout.

(** ** Rows without a date or a score *)

(** [date IS NULL]. *)
Definition undated_row (e : Element) : bool :=
  match date e with
  | None => true
  | Some _ => false
  end.

(** [decay_score IS NULL]. *)
Definition unscored (r : ScoredRow) : bool :=
  match decay_score r with
  | None => true
  | Some _ => false
  end.

(** [decay_score IS NULL OR decay_score >= 1]: the rows the descending
    order puts no later than a row of score 1. *)
Definition scores_at_least_one (r : ScoredRow) : bool :=
  match decay_score r with
  | None => true
  | Some x => R_leb 1 x
  end.

(** ** The notebook, cell by cell *)

Section Notebook.

Variable listdir : string -> list string.
Variable partition_email : string -> list DocElement.
Variable embed_query : string -> vector.
(** The clock behind [NOW()] and the table before the run. *)
Variable now : timestamp.
Variable db : Store.

Definition cell9 : list DocElement :=
  elements (ingest ".eml" EXAMPLE_DOCS_DIRECTORY partition_email
              (listdir EXAMPLE_DOCS_DIRECTORY)).

Definition cell11 : list EmbeddedElement := embed_elements embed_query cell9.

Definition cell12 : list Element := items_to_add cell11.

Definition cell13 : Store * CommitResult := insert_all cell12 db.

Definition cell16 : list (list Py.value) :=
  print_filtered
    (filtered_query "NarrativeText" (embed_query "email") 5 (fst cell13)) [].

(** Cell 17: [decay_rate = 0.10]. *)
Definition decay_rate : R := (10 / 100)%R.

Definition cell18 : list (list Py.value) :=
  print_decayed
    (decayed_query decay_rate now (embed_query "violets") 5 (fst cell13)) [].

End Notebook.

(** ** The specification's wording, for comparison *)


(** The specification's output tuple, [(identifier, text, score)]. *)
Definition spec_output_tuple (ident : option Z) (txt : string) (score : option R)
  : list Py.value :=
  [py_id ident; Py.VStr txt; py_float score].

(** ** Concrete inputs *)

(** Vectors of the column's dimension. *)
Definition zero_vector : vector := repeat 0%R ADA_TOKEN_COUNT.

Definition unit_vector : vector := 1%R :: repeat 0%R (ADA_TOKEN_COUNT - 1).

(** 2023-06-15 12:00:00 UTC, in microseconds. *)
Definition sample_now : timestamp := 1686830400000000%Z.

Definition sample_element (txt cat : string) (emb : vector)
  (sent : option timestamp) : Element :=
  {| id := None;
     embedding := emb;
     text := txt;
     category := cat;
     filename := Some "fake-email.eml"%string;
     date := sent;
     sent_to := Some ["Mallori Harrell <mallori@unstructured.io>"%string];
     sent_from := Some ["Matthew Robinson <mrobinson@unstructured.io>"%string];
     subject := Some "Test Email"%string |}.

(** Two narrative elements sent exactly one day before [sample_now], one
    sent an hour before, a title, and an element without a date. *)
Definition violets : Element :=
  sample_element "Violets are blue" "NarrativeText" zero_vector
    (Some (sample_now - USECS_PER_DAY)%Z).

Definition roses : Element :=
  sample_element "Roses are red" "NarrativeText" unit_vector
    (Some (sample_now - USECS_PER_DAY)%Z).

Definition fresh_roses : Element :=
  sample_element "Roses are red" "NarrativeText" unit_vector
    (Some (sample_now - 3600000000)%Z).

Definition title : Element :=
  sample_element "Important points:" "Title" zero_vector
    (Some (sample_now - USECS_PER_DAY)%Z).

Definition undated : Element :=
  sample_element "It includes:" "NarrativeText" zero_vector None.

(** An element whose embedding has three coordinates. *)
Definition short_embedding : Element :=
  sample_element "It includes:" "NarrativeText" [1%R; 2%R; 3%R] None.

(** Tables holding these elements, keyed 1, 2, ... in insertion order: what
    the bulk insert of the listed elements into the empty table leaves. *)
Definition table_of (stored : list Element) : Store :=
  {| rows := assign_ids stored 1;
     next_id := 1 + Z.of_nat (List.length stored) |}.

Definition two_flowers : Store := table_of [violets; roses].

Definition old_and_fresh : Store := table_of [roses; fresh_roses].

Definition violets_only : Store := table_of [violets].

Definition title_only : Store := table_of [title].

(** A table where the undated element was stored last. *)
Definition dated_then_undated : Store := table_of [violets; undated].

(** An element dated exactly one day after [sample_now], and a table holding
    a fresh element and this one. *)
Definition future_roses : Element :=
  sample_element "Roses are red" "NarrativeText" unit_vector
    (Some (sample_now + USECS_PER_DAY)%Z).

Definition fresh_and_future : Store := table_of [fresh_roses; future_roses].

(* ================================================================== *)
(** * Part II: properties *)
(* ================================================================== *)

(** ** Strings: what [endswith] decides *)

Module PyFacts.

Lemma length_append (p s : string) :
  String.length (p ++ s) = String.length p + String.length s.
Proof.
  induction p as [| c p IH]; simpl; [reflexivity | now rewrite IH].
Qed.

Lemma substring_full (s : string) : substring 0 (String.length s) s = s.
Proof.
  induction s as [| c s IH]; simpl; [reflexivity | now rewrite IH].
Qed.

Lemma substring_skip_prefix (p s : string) (m : nat) :
  substring (String.length p) m (p ++ s) = substring 0 m s.
Proof.
  induction p as [| c p IH]; simpl; [reflexivity | exact IH].
Qed.

(** A string is its first [k] characters followed by the rest. *)
Lemma substring_split (s : string) :
  forall k, k <= String.length s ->
    s = (substring 0 k s ++ substring k (String.length s - k) s)%string.
Proof.
  induction s as [| c s IH]; intros [| k] Hk; simpl in *.
  - reflexivity.
  - lia.
  - now rewrite substring_full.
  - f_equal. apply IH. lia.
Qed.

(** [endswith] holds exactly of the strings that are some prefix followed
    by the suffix. *)
Lemma endswith_iff (s suffix : string) :
  Py.endswith s suffix = true <-> exists p, s = (p ++ suffix)%string.
Proof.
  unfold Py.endswith. rewrite andb_true_iff, Nat.leb_le, String.eqb_eq.
  split.
  - intros [Hle Hsub].
    exists (substring 0 (String.length s - String.length suffix) s).
    pose proof (substring_split s (String.length s - String.length suffix))
      as Hsplit.
    replace (String.length s - (String.length s - String.length suffix))
      with (String.length suffix) in Hsplit by lia.
    rewrite Hsub in Hsplit. apply Hsplit. lia.
  - intros [p ->]. rewrite length_append. split; [lia |].
    replace (String.length p + String.length suffix - String.length suffix)
      with (String.length p) by lia.
    rewrite substring_skip_prefix. apply substring_full.
Qed.

End PyFacts.

(** ** Cell 9: what the ingestion loop collects *)

Section IngestionFacts.

Variable ext : string.
Variable dir : string.
Variable partition_email : string -> list DocElement.

Let step := ingest_step ext dir partition_email.
Let matching (f : string) : bool := Py.endswith f ext.

(** The loop from any state: the matching files are appended to the trace,
    their elements to [elements], both in listing order. *)
Lemma ingest_loop_from (listing : list string) :
  forall st,
    partitioned (fold_left step listing st) =
      partitioned st ++ map (Py.path_join dir) (filter matching listing)
    /\ elements (fold_left step listing st) =
      elements st
      ++ List.concat (map partition_email
                   (map (Py.path_join dir) (filter matching listing))).
Proof.
  induction listing as [| f listing IH]; intros st; simpl.
  - now rewrite !app_nil_r.
  - destruct (IH (step st f)) as [Hp He]. rewrite Hp, He. clear Hp He IH.
    unfold step, ingest_step, matching.
    destruct (Py.endswith f ext); simpl.
    + now rewrite <- !app_assoc.
    + split; reflexivity.
Qed.

(** A file that does not match leaves the state as it is. *)
Lemma ingest_step_skip (st : IngestState) (f : string) :
  Py.endswith f ext = false -> step st f = st.
Proof.
  intros H. unfold step, ingest_step. now rewrite H.
Qed.

End IngestionFacts.

(** C7. For every directory listing and extension filter, the ingestion loop
    hands to the partitioner exactly the files of the listing whose names end
    with the extension (a name ends with it when it is some prefix followed by
    the extension), in listing order, joined to the directory; the collected
    elements are the concatenation, in that order, of what the partitioner
    returns for each of them (zero or more elements per document); a file
    that does not match changes nothing. The notebook's cell 9 is the
    instance with the extension [".eml"]. *)
Theorem ingest_partitions_matching_files
  (ext dir : string) (partition_email : string -> list DocElement)
  (listing : list string) :
  let matching := filter (fun f => Py.endswith f ext) listing in
  (forall f, In f matching <->
             In f listing /\ exists p, f = (p ++ ext)%string)
  /\ partitioned (ingest ext dir partition_email listing) =
       map (Py.path_join dir) matching
  /\ elements (ingest ext dir partition_email listing) =
       List.concat (map partition_email (map (Py.path_join dir) matching))
  /\ (forall st f, ~ (exists p, f = (p ++ ext)%string) ->
                   ingest_step ext dir partition_email st f = st)
  /\ (forall listdir,
        cell9 listdir partition_email =
          List.concat (map partition_email
                    (map (Py.path_join EXAMPLE_DOCS_DIRECTORY)
                       (filter (fun f => Py.endswith f ".eml")
                          (listdir EXAMPLE_DOCS_DIRECTORY))))).
Proof.
  intros matching.
  pose proof (ingest_loop_from ext dir partition_email listing
                {| elements := []; partitioned := [] |}) as [Htrace Hels].
  split; [| split; [exact Htrace | split; [exact Hels | split]]].
  - intros f. unfold matching. rewrite filter_In, PyFacts.endswith_iff.
    reflexivity.
  - intros st f Hno. apply ingest_step_skip.
    destruct (Py.endswith f ext) eqn:E; [| reflexivity].
    exfalso. apply Hno. now apply PyFacts.endswith_iff.
  - intros listdir. unfold cell9.
    apply (ingest_loop_from ".eml" EXAMPLE_DOCS_DIRECTORY partition_email
             (listdir EXAMPLE_DOCS_DIRECTORY)
             {| elements := []; partitioned := [] |}).
Qed.

(** ** A concrete run of the ingestion loop *)

Example ingest_sample_listing :
  let partition_email f :=
    [ {| doc_text := f; doc_category := "NarrativeText";
         doc_metadata := mkMetadata (Some f) None None None None |} ] in
  partitioned
    (ingest ".eml" EXAMPLE_DOCS_DIRECTORY partition_email
       ["fake-email.eml"; "README.md"; "eml"; "fake-email-attachment.eml";
        "notes.eml.txt"]%string)
  = ["../../example-docs/fake-email.eml";
     "../../example-docs/fake-email-attachment.eml"]%string.
Proof. reflexivity. Qed.

(** ** Cell 13: the store *)

Lemma insert_row_inr (e : Element) (s s' : Store) :
  insert_row e s = inr s' ->
  dim (embedding e) = ADA_TOKEN_COUNT
  /\ exists key,
       rows s' = rows s ++ [set_id e key]
       /\ existsb (has_id key) (rows s) = false
       /\ (next_id s <= next_id s')%Z
       /\ (id e = None -> key = next_id s /\ next_id s' = (next_id s + 1)%Z).
Proof.
  unfold insert_row.
  destruct (dim (embedding e) =? ADA_TOKEN_COUNT)%nat eqn:Hdim; simpl;
    [| discriminate].
  apply Nat.eqb_eq in Hdim.
  destruct (id e) as [k |] eqn:Hid.
  - destruct (existsb (has_id k) (rows s)) eqn:Hex; [discriminate |].
    intros H. injection H as <-. split; [exact Hdim |]. exists k. simpl.
    split; [reflexivity | split; [exact Hex | split; [lia | discriminate]]].
  - destruct (existsb (has_id (next_id s)) (rows s)) eqn:Hex; [discriminate |].
    intros H. injection H as <-. split; [exact Hdim |]. exists (next_id s).
    simpl. split; [reflexivity | split; [exact Hex | split; [lia |]]].
    intros _. split; reflexivity.
Qed.

Lemma insert_row_wrong_dim (e : Element) (s : Store) :
  dim (embedding e) <> ADA_TOKEN_COUNT ->
  insert_row e s = inl (DimensionMismatch ADA_TOKEN_COUNT (dim (embedding e))).
Proof.
  intros H. unfold insert_row. apply Nat.eqb_neq in H. now rewrite H.
Qed.

(** A flush only appends rows, each of the column's dimension. *)
Lemma flush_inr (items : list Element) :
  forall s s', flush items s = inr s' ->
    exists added, rows s' = rows s ++ added
                  /\ Forall (fun r => dim (embedding r) = ADA_TOKEN_COUNT) added.
Proof.
  induction items as [| e items IH]; intros s s' H; simpl in H.
  - injection H as <-. exists []. split; [now rewrite app_nil_r | constructor].
  - destruct (insert_row e s) as [err | s1] eqn:He; [discriminate |].
    apply insert_row_inr in He. destruct He as [Hdim [key [Hrows _]]].
    destruct (IH _ _ H) as [added [Hrows' Hadded]].
    exists (set_id e key :: added). split.
    + rewrite Hrows', Hrows, <- app_assoc. reflexivity.
    + constructor; [exact Hdim | exact Hadded].
Qed.

(** A pending object of the wrong dimension makes the flush fail. *)
Lemma flush_wrong_dim (items : list Element) (e : Element) :
  In e items -> dim (embedding e) <> ADA_TOKEN_COUNT ->
  forall s, exists err, flush items s = inl err.
Proof.
  intros Hin Hdim. induction items as [| e0 items IH]; intros s.
  - contradiction.
  - simpl. destruct (insert_row e0 s) as [err | s1] eqn:He0.
    + now exists err.
    + destruct Hin as [-> | Hin].
      * rewrite (insert_row_wrong_dim e s Hdim) in He0. discriminate.
      * now apply IH.
Qed.

Lemma insert_all_typed (items : list Element) (s : Store) :
  store_typed s -> store_typed (fst (insert_all items s)).
Proof.
  intros Hs. unfold insert_all.
  destruct (flush items s) as [err | s'] eqn:Hf; simpl; [exact Hs |].
  apply flush_inr in Hf. destruct Hf as [added [Hrows Hadded]].
  unfold store_typed. rewrite Hrows. apply Forall_app. now split.
Qed.

Lemma reachable_typed (s : Store) : reachable s -> store_typed s.
Proof.
  induction 1 as [| items s Hs IH].
  - constructor.
  - now apply insert_all_typed.
Qed.

(** C5. Every stored Element has an embedding whose dimension is the
    deployment constant, 1536: the empty table and every table reached from
    it by bulk inserts holds only such rows. An attempt to insert an Element
    whose embedding has another dimension fails with a store error and
    leaves the store unchanged, whether the Element is inserted alone (the
    error then names the two dimensions) or as part of a batch. *)
Theorem embedding_dimension_enforced :
  ADA_TOKEN_COUNT = 1536
  /\ (forall s, reachable s ->
        Forall (fun r => dim (embedding r) = ADA_TOKEN_COUNT) (rows s))
  /\ (forall e s, dim (embedding e) <> ADA_TOKEN_COUNT ->
        insert_all [e] s =
          (s, Failed (DimensionMismatch ADA_TOKEN_COUNT (dim (embedding e)))))
  /\ (forall items e s,
        In e items -> dim (embedding e) <> ADA_TOKEN_COUNT ->
        exists err, insert_all items s = (s, Failed err)).
Proof.
  split; [reflexivity | split; [| split]].
  - intros s Hs. now apply reachable_typed.
  - intros e s Hdim. unfold insert_all. simpl.
    now rewrite (insert_row_wrong_dim e s Hdim).
  - intros items e s Hin Hdim. unfold insert_all.
    destruct (flush_wrong_dim items e Hin Hdim s) as [err ->].
    now exists err.
Qed.

(** *** Reading a row back *)

Lemma find_app_first {A : Type} (f : A -> bool) (l1 l2 : list A) (x : A) :
  existsb f l1 = false -> f x = true -> find f (l1 ++ x :: l2) = Some x.
Proof.
  intros Hl1 Hx. induction l1 as [| a l1 IH]; simpl in *.
  - now rewrite Hx.
  - apply orb_false_iff in Hl1. destruct Hl1 as [Ha Hl1].
    rewrite Ha. now apply IH.
Qed.

Lemma has_id_set_id (e : Element) (key : Z) : has_id key (set_id e key) = true.
Proof. unfold has_id. simpl. apply Z.eqb_refl. Qed.

(** After a successful flush every flushed object is found under its key. *)
Lemma flush_get (items : list Element) :
  forall s s' e, flush items s = inr s' -> In e items ->
    exists key, get s' key = Some (set_id e key).
Proof.
  induction items as [| e0 items IH]; intros s s' e H Hin; simpl in H.
  - contradiction.
  - destruct (insert_row e0 s) as [err | s1] eqn:He0; [discriminate |].
    destruct Hin as [-> | Hin]; [| now apply (IH s1)].
    apply insert_row_inr in He0. destruct He0 as [_ [key [Hrows [Hex _]]]].
    apply flush_inr in H. destruct H as [added [Hrows' _]].
    exists key. unfold get. rewrite Hrows', Hrows, <- app_assoc. simpl.
    apply find_app_first; [exact Hex | apply has_id_set_id].
Qed.

Lemma sequence_ahead_fresh_key (s : Store) :
  sequence_ahead s -> existsb (has_id (next_id s)) (rows s) = false.
Proof.
  unfold sequence_ahead. intros H.
  destruct (existsb (has_id (next_id s)) (rows s)) eqn:E; [| reflexivity].
  apply existsb_exists in E. destruct E as [r [Hr Hid]].
  rewrite Forall_forall in H. destruct (H r Hr) as [k [Hk Hlt]].
  unfold has_id in Hid. rewrite Hk in Hid. apply Z.eqb_eq in Hid. lia.
Qed.

(** A new object of the right dimension is accepted by a table whose keys
    all came from the sequence, under the next key. *)
Lemma insert_row_new (e : Element) (s : Store) :
  id e = None -> dim (embedding e) = ADA_TOKEN_COUNT -> sequence_ahead s ->
  insert_row e s =
    inr {| rows := rows s ++ [set_id e (next_id s)];
           next_id := next_id s + 1 |}.
Proof.
  intros Hid Hdim Hseq. unfold insert_row.
  apply Nat.eqb_eq in Hdim. rewrite Hdim, Hid. simpl.
  now rewrite (sequence_ahead_fresh_key s Hseq).
Qed.

Lemma same_content_set_id (e : Element) (key : Z) : same_content (set_id e key) e.
Proof. unfold same_content. simpl. repeat split. Qed.

Lemma insert_all_committed (items : list Element) (s s' : Store) :
  insert_all items s = (s', Committed) -> flush items s = inr s'.
Proof.
  unfold insert_all. destruct (flush items s) as [err | s1]; intros H.
  - discriminate.
  - now injection H as <-.
Qed.

Lemma sequence_ahead_empty : sequence_ahead empty_store.
Proof. constructor. Qed.

(** Inserting new objects keeps the sequence ahead of the keys. *)
Lemma sequence_ahead_insert_row (e : Element) (s s' : Store) :
  id e = None -> sequence_ahead s -> insert_row e s = inr s' ->
  sequence_ahead s'.
Proof.
  intros Hid Hseq H. apply insert_row_inr in H.
  destruct H as [_ [key [Hrows [_ [_ Hkey]]]]].
  destruct (Hkey Hid) as [-> Hnext].
  unfold sequence_ahead in *. rewrite Hrows, Hnext. apply Forall_app. split.
  - apply Forall_impl with (2 := Hseq). intros r [k [Hk Hlt]].
    exists k. split; [exact Hk | lia].
  - constructor; [| constructor]. exists (next_id s). simpl. split; [reflexivity | lia].
Qed.

(** C6. Inserting an Element and immediately retrieving the stored row by
    its assigned id returns a row with the same text, metadata fields
    (category, filename, subject, date, sent_to, sent_from) and embedding: a
    new Element of the column's dimension is committed under the next key of
    the sequence and found under that key; and after any committed bulk
    insert every inserted Element is found, unchanged, under its key. *)
Theorem insert_then_get_roundtrip :
  (forall e s,
     id e = None -> dim (embedding e) = ADA_TOKEN_COUNT -> sequence_ahead s ->
     exists s' r,
       insert_all [e] s = (s', Committed)
       /\ get s' (next_id s) = Some r
       /\ id r = Some (next_id s)
       /\ same_content r e)
  /\ (forall items s s' e,
        insert_all items s = (s', Committed) -> In e items ->
        exists key r,
          get s' key = Some r /\ id r = Some key /\ same_content r e).
Proof.
  split.
  - intros e s Hid Hdim Hseq.
    exists {| rows := rows s ++ [set_id e (next_id s)];
              next_id := next_id s + 1 |}, (set_id e (next_id s)).
    split; [| split; [| split]].
    + unfold insert_all. simpl. now rewrite (insert_row_new e s Hid Hdim Hseq).
    + unfold get. simpl. apply find_app_first.
      * now apply sequence_ahead_fresh_key.
      * apply has_id_set_id.
    + reflexivity.
    + apply same_content_set_id.
  - intros items s s' e Hcommit Hin.
    apply insert_all_committed in Hcommit.
    destruct (flush_get items s s' e Hcommit Hin) as [key Hget].
    exists key, (set_id e key).
    split; [exact Hget | split; [reflexivity | apply same_content_set_id]].
Qed.

(** ** Cells 9 to 13 together *)

Lemma items_to_add_map (els : list EmbeddedElement) :
  items_to_add els = map new_Element els.
Proof.
  unfold items_to_add.
  assert (forall acc, fold_left (fun items el => items ++ [new_Element el]) els acc
                      = acc ++ map new_Element els) as H.
  { induction els as [| el els IH]; intros acc; simpl.
    - now rewrite app_nil_r.
    - rewrite IH, <- app_assoc. reflexivity. }
  apply (H []).
Qed.

(** New objects of the column's dimension are all accepted, in order, under
    consecutive keys. *)
Lemma flush_new_items (items : list Element) :
  forall s,
    Forall (fun e => id e = None /\ dim (embedding e) = ADA_TOKEN_COUNT) items ->
    sequence_ahead s ->
    flush items s =
      inr {| rows := rows s ++ assign_ids items (next_id s);
             next_id := next_id s + Z.of_nat (List.length items) |}.
Proof.
  induction items as [| e items IH]; intros s Hitems Hseq; simpl.
  - rewrite app_nil_r, Z.add_0_r. now destruct s.
  - inversion Hitems as [| ? ? [Hid Hdim] Hrest]; subst.
    rewrite (insert_row_new e s Hid Hdim Hseq).
    rewrite IH.
    + simpl rows. simpl next_id. rewrite <- app_assoc. simpl.
      do 2 f_equal. lia.
    + exact Hrest.
    + apply (sequence_ahead_insert_row e s); [exact Hid | exact Hseq |].
      now apply insert_row_new.
Qed.

(** The notebook's load, cells 9 to 13: when the embedding function returns
    vectors of [ADA_TOKEN_COUNT] coordinates and the keys of the table all
    came from the sequence, the bulk insert commits and appends one row per
    partitioned element, in ingestion order, under consecutive keys, each
    with the element's text, category and metadata and the embedding of its
    text. *)
Theorem notebook_load_commits
  (listdir : string -> list string)
  (partition_email : string -> list DocElement)
  (embed_query : string -> vector) (db : Store) :
  (forall t, dim (embed_query t) = ADA_TOKEN_COUNT) ->
  sequence_ahead db ->
  let docs := cell9 listdir partition_email in
  let items :=
    map (fun el =>
           {| id := None;
              embedding := embed_query (doc_text el);
              text := doc_text el;
              category := doc_category el;
              filename := md_filename (doc_metadata el);
              date := md_date (doc_metadata el);
              sent_to := md_sent_to (doc_metadata el);
              sent_from := md_sent_from (doc_metadata el);
              subject := md_subject (doc_metadata el) |}) docs in
  cell12 listdir partition_email embed_query = items
  /\ cell13 listdir partition_email embed_query db =
       ({| rows := rows db ++ assign_ids items (next_id db);
           next_id := next_id db + Z.of_nat (List.length docs) |}, Committed).
Proof.
  intros Hdim Hseq docs items.
  assert (cell12 listdir partition_email embed_query = items) as Hitems.
  { unfold cell12, cell11, embed_elements. rewrite items_to_add_map, map_map.
    reflexivity. }
  split; [exact Hitems |].
  unfold cell13, insert_all. rewrite Hitems, flush_new_items.
  - unfold items. now rewrite length_map.
  - apply Forall_forall. intros e He. unfold items in He.
    apply in_map_iff in He. destruct He as [el [<- _]]. simpl.
    split; [reflexivity | apply Hdim].
  - exact Hseq.
Qed.

(** ** ORDER BY: permutation, order, stability, LIMIT *)

Section OrderByFacts.

Context {A : Type}.
Variable precedes : A -> A -> bool.

Let before (a b : A) : Prop := precedes a b = true.

Lemma insert_sorted_perm (a : A) (l : list A) :
  Permutation (insert_sorted precedes a l) (a :: l).
Proof.
  induction l as [| b l IH]; simpl.
  - apply Permutation_refl.
  - destruct (precedes a b).
    + apply Permutation_refl.
    + apply perm_trans with (b :: a :: l).
      * now apply perm_skip.
      * apply perm_swap.
Qed.

Lemma order_by_perm (l : list A) : Permutation (order_by precedes l) l.
Proof.
  induction l as [| a l IH]; simpl.
  - apply perm_nil.
  - apply perm_trans with (a :: order_by precedes l).
    + apply insert_sorted_perm.
    + now apply perm_skip.
Qed.

Lemma order_by_length (l : list A) :
  List.length (order_by precedes l) = List.length l.
Proof. apply Permutation_length, order_by_perm. Qed.

Lemma order_by_In (l : list A) (x : A) :
  In x (order_by precedes l) <-> In x l.
Proof.
  split; apply Permutation_in;
    [apply order_by_perm | apply Permutation_sym, order_by_perm].
Qed.

(** A row that may precede every row of an ordered list is put at its
    head. *)
Lemma insert_sorted_head (e : A) (l : list A) :
  Forall (before e) l -> insert_sorted precedes e l = e :: l.
Proof.
  intros H. destruct l as [| b l]; simpl; [reflexivity |].
  inversion H as [| ? ? Hb _]; subst. unfold before in Hb. now rewrite Hb.
Qed.

(** Stability at the head: a row that strictly precedes all rows stored
    before it, and may precede all rows stored after it, comes first. *)
Lemma order_by_head (l1 l2 : list A) (e : A) :
  Forall (fun x => precedes x e = false) l1 ->
  Forall (before e) l2 ->
  order_by precedes (l1 ++ e :: l2) = e :: order_by precedes (l1 ++ l2).
Proof.
  intros H1 H2. induction l1 as [| a l1 IH]; simpl.
  - apply insert_sorted_head.
    apply Forall_forall. intros x Hx. apply (proj1 (order_by_In _ _)) in Hx.
    rewrite Forall_forall in H2. now apply H2.
  - inversion H1 as [| ? ? Ha H1']; subst.
    rewrite (IH H1'). simpl. now rewrite Ha.
Qed.

Hypothesis precedes_total :
  forall a b, precedes a b = false -> precedes b a = true.
Hypothesis precedes_trans :
  forall a b c, before a b -> before b c -> before a c.

Lemma insert_sorted_sorted (a : A) (l : list A) :
  StronglySorted before l -> StronglySorted before (insert_sorted precedes a l).
Proof.
  induction 1 as [| b l Hl IH Hb]; simpl.
  - constructor; constructor.
  - destruct (precedes a b) eqn:E.
    + constructor; [now constructor |].
      constructor; [exact E |].
      apply Forall_impl with (P := before b); [| exact Hb].
      intros c Hc. now apply precedes_trans with b.
    + constructor; [exact IH |].
      apply Forall_forall. intros x Hx.
      apply (Permutation_in _ (insert_sorted_perm a l)) in Hx.
      destruct Hx as [<- | Hx].
      * now apply precedes_total.
      * rewrite Forall_forall in Hb. now apply Hb.
Qed.

Lemma order_by_sorted (l : list A) : StronglySorted before (order_by precedes l).
Proof.
  induction l as [| a l IH]; simpl.
  - constructor.
  - now apply insert_sorted_sorted.
Qed.

End OrderByFacts.

Section SortedFacts.

Context {A : Type}.
Variable before : A -> A -> Prop.

Lemma sorted_firstn (K : nat) (l : list A) :
  StronglySorted before l -> StronglySorted before (firstn K l).
Proof.
  intros H. revert K. induction H as [| a l Hl IH Ha]; intros [| K]; simpl;
    try constructor.
  - apply IH.
  - apply Forall_forall. intros x Hx.
    assert (In x l) as Hin.
    { rewrite <- (firstn_skipn K l). apply in_or_app. now left. }
    rewrite Forall_forall in Ha. now apply Ha.
Qed.

(** LIMIT keeps a best part: every kept row may precede every dropped one. *)
Lemma sorted_firstn_skipn (K : nat) (l : list A) :
  StronglySorted before l ->
  forall x y, In x (firstn K l) -> In y (skipn K l) -> before x y.
Proof.
  intros H. revert K. induction H as [| a l Hl IH Ha]; intros [| K] x y;
    simpl; try tauto.
  intros [<- | Hx] Hy.
  - assert (In y l) as Hin.
    { rewrite <- (firstn_skipn K l). apply in_or_app. now right. }
    rewrite Forall_forall in Ha. now apply Ha.
  - now apply (IH K).
Qed.

(** In an ordered list an earlier position may precede a later one. *)
Lemma sorted_nth_error (l : list A) :
  StronglySorted before l ->
  forall i j x y, i < j -> nth_error l i = Some x -> nth_error l j = Some y ->
                  before x y.
Proof.
  induction 1 as [| a l Hl IH Ha]; intros i j x y Hij Hi Hj.
  - destruct i; discriminate.
  - destruct j as [| j]; [lia |]. simpl in Hj.
    destruct i as [| i]; simpl in Hi.
    + injection Hi as <-. apply nth_error_In in Hj.
      rewrite Forall_forall in Ha. now apply Ha.
    + apply (IH i j); [lia | assumption | assumption].
Qed.

End SortedFacts.

(** ** The comparisons behind the two orderings *)

Lemma R_leb_le (x y : R) : R_leb x y = true <-> (x <= y)%R.
Proof.
  unfold R_leb. destruct (Rle_dec x y); split; intros; try assumption;
    try reflexivity; try discriminate; contradiction.
Qed.

Lemma R_leb_gt (x y : R) : R_leb x y = false <-> (y < x)%R.
Proof.
  unfold R_leb. destruct (Rle_dec x y); split; intros; try discriminate;
    try reflexivity; lra.
Qed.

Lemma ascending_total {A : Type} (key : A -> R) (a b : A) :
  ascending key a b = false -> ascending key b a = true.
Proof.
  unfold ascending. rewrite R_leb_gt, R_leb_le. lra.
Qed.

Lemma ascending_trans {A : Type} (key : A -> R) (a b c : A) :
  ascending key a b = true -> ascending key b c = true ->
  ascending key a c = true.
Proof.
  unfold ascending. rewrite !R_leb_le. lra.
Qed.

Lemma descending_total {A : Type} (key : A -> option R) (a b : A) :
  descending key a b = false -> descending key b a = true.
Proof.
  unfold descending, desc_nulls_first.
  destruct (key a), (key b); try reflexivity; try discriminate.
  rewrite R_leb_gt, R_leb_le. lra.
Qed.

Lemma descending_trans {A : Type} (key : A -> option R) (a b c : A) :
  descending key a b = true -> descending key b c = true ->
  descending key a c = true.
Proof.
  unfold descending, desc_nulls_first.
  destruct (key a), (key b), (key c); try reflexivity; try discriminate.
  rewrite !R_leb_le. lra.
Qed.

Lemma StronglySorted_weaken {A : Type} (P Q : A -> A -> Prop) (l : list A) :
  (forall a b, P a b -> Q a b) -> StronglySorted P l -> StronglySorted Q l.
Proof.
  intros HPQ. induction 1 as [| a l Hl IH Ha]; constructor.
  - exact IH.
  - apply Forall_impl with (P := P a); [apply HPQ | exact Ha].
Qed.

(** ** The distance operator *)

Lemma sum_sq_diff_nonneg (u : vector) : forall v, (0 <= sum_sq_diff u v)%R.
Proof.
  induction u as [| x u IH]; intros [| y v]; simpl; try lra.
  specialize (IH v). pose proof (Rle_0_sqr (x - y)) as Hsq.
  unfold Rsqr in Hsq. lra.
Qed.

Lemma l2_distance_nonneg (u v : vector) : (0 <= l2_distance u v)%R.
Proof. apply sqrt_pos. Qed.

Lemma sum_sq_diff_self (v : vector) : sum_sq_diff v v = 0%R.
Proof.
  induction v as [| x v IH]; simpl; [reflexivity |]. rewrite IH. ring.
Qed.

(** The distance of a vector to itself is 0. *)
Lemma l2_distance_self (v : vector) : l2_distance v v = 0%R.
Proof. unfold l2_distance. rewrite sum_sq_diff_self. apply sqrt_0. Qed.

(** ** Cell 16: the filtered nearest-neighbour query *)

Section FilteredQueryFacts.

Variable c : string.
Variable v : vector.

Let dist (e : Element) : R := l2_distance (embedding e) v.
Let selected (s : Store) : list Element :=
  filter (fun e => String.eqb (category e) c) (rows s).

Lemma filtered_query_unfold (K : nat) (s : Store) :
  filtered_query c v K s = firstn K (order_by (ascending dist) (selected s)).
Proof. reflexivity. Qed.

Lemma ordered_selected_sorted (s : Store) :
  StronglySorted (fun a b => (dist a <= dist b)%R)
    (order_by (ascending dist) (selected s)).
Proof.
  apply StronglySorted_weaken
    with (P := fun a b => ascending dist a b = true).
  - intros a b H. now apply R_leb_le.
  - apply order_by_sorted.
    + apply ascending_total.
    + apply ascending_trans.
Qed.

Lemma in_selected (s : Store) (e : Element) :
  In e (selected s) <-> In e (rows s) /\ category e = c.
Proof.
  unfold selected. rewrite filter_In, String.eqb_eq. reflexivity.
Qed.

Lemma in_filtered_query (K : nat) (s : Store) (e : Element) :
  In e (filtered_query c v K s) -> In e (rows s) /\ category e = c.
Proof.
  rewrite filtered_query_unfold. intros H.
  apply in_selected. apply (order_by_In (ascending dist)).
  rewrite <- (firstn_skipn K (order_by _ _)). apply in_or_app. now left.
Qed.

End FilteredQueryFacts.

(** C3. For every category value, query vector and limit, the filtered
    nearest-neighbour query returns only stored Elements whose category is
    the filter value, in ascending order of their L2 distance to the query
    vector, and at most [K] of them: the [K] nearest of the matching Elements
    (all of them when fewer than [K] match), every other matching Element
    being at least as far as each returned one. *)
Theorem filtered_query_nearest_of_category
  (c : string) (v : vector) (K : nat) (s : Store) :
  let dist e := l2_distance (embedding e) v in
  let matching := filter (fun e => String.eqb (category e) c) (rows s) in
  let result := filtered_query c v K s in
  Forall (fun e => category e = c /\ In e (rows s)) result
  /\ StronglySorted (fun a b => (dist a <= dist b)%R) result
  /\ List.length result <= K
  /\ List.length result = Nat.min K (List.length matching)
  /\ exists others,
       Permutation (result ++ others) matching
       /\ forall x y, In x result -> In y others -> (dist x <= dist y)%R.
Proof.
  intros dist matching result.
  split; [| split; [| split; [| split]]].
  - apply Forall_forall. intros e He.
    apply in_filtered_query in He. tauto.
  - apply sorted_firstn. apply ordered_selected_sorted.
  - apply firstn_le_length.
  - unfold result, filtered_query. rewrite length_firstn, order_by_length.
    reflexivity.
  - exists (skipn K (order_by (ascending dist) matching)). split.
    + unfold result, filtered_query. fold dist. fold matching.
      rewrite firstn_skipn. apply order_by_perm.
    + apply sorted_firstn_skipn. apply ordered_selected_sorted.
Qed.

(** ** The decay expression *)

Lemma exp_monotone (x y : R) : (x <= y)%R -> (exp x <= exp y)%R.
Proof.
  intros [Hlt | ->]; [left; now apply exp_increasing | right; reflexivity].
Qed.

Lemma decay_expr_day_zero (decay_rate dist : R) :
  decay_expr decay_rate 0 dist = 1%R.
Proof.
  unfold decay_expr. replace (- decay_rate * 0 * dist)%R with 0%R by ring.
  apply exp_0.
Qed.

Lemma decay_expr_dist_zero (decay_rate : R) (days : Z) :
  decay_expr decay_rate days 0 = 1%R.
Proof.
  unfold decay_expr. rewrite Rmult_0_r. apply exp_0.
Qed.

(** Older rows score no higher, at a fixed non-negative distance. *)
Lemma decay_expr_age (decay_rate dist : R) (a1 a2 : Z) :
  (0 <= decay_rate)%R -> (0 <= dist)%R -> (a1 <= a2)%Z ->
  (decay_expr decay_rate a2 dist <= decay_expr decay_rate a1 dist)%R.
Proof.
  intros Hrate Hdist Hage. unfold decay_expr. apply exp_monotone.
  apply IZR_le in Hage.
  assert (0 <= decay_rate * dist)%R by now apply Rmult_le_pos.
  nra.
Qed.

(** Farther rows score no higher, at a fixed non-negative age. *)
Lemma decay_expr_dist (decay_rate : R) (days : Z) (d1 d2 : R) :
  (0 <= decay_rate)%R -> (0 <= days)%Z -> (d1 <= d2)%R ->
  (decay_expr decay_rate days d2 <= decay_expr decay_rate days d1)%R.
Proof.
  intros Hrate Hdays Hd. unfold decay_expr. apply exp_monotone.
  apply IZR_le in Hdays.
  assert (0 <= decay_rate * IZR days)%R by now apply Rmult_le_pos.
  nra.
Qed.

(** A row at least one day old and at a positive distance scores below 1. *)
Lemma decay_expr_below_one (decay_rate dist : R) (days : Z) :
  (0 < decay_rate)%R -> (1 <= days)%Z -> (0 < dist)%R ->
  (decay_expr decay_rate days dist < 1)%R.
Proof.
  intros Hrate Hdays Hdist. unfold decay_expr. rewrite <- exp_0.
  apply exp_increasing. apply IZR_le in Hdays.
  assert (0 < decay_rate * dist)%R by now apply Rmult_lt_0_compat.
  nra.
Qed.

(** ** [EXTRACT(DAY FROM ...)] *)

Lemma extract_day_fresh (interval : Z) :
  (0 <= interval < USECS_PER_DAY)%Z -> extract_day interval = 0%Z.
Proof. intros H. unfold extract_day. now apply Z.quot_small. Qed.

Lemma extract_day_nonneg (interval : Z) :
  (0 <= interval)%Z -> (0 <= extract_day interval)%Z.
Proof.
  intros H. unfold extract_day. apply Z.quot_pos; [exact H |].
  unfold USECS_PER_DAY. lia.
Qed.

Lemma extract_day_older (interval : Z) :
  (USECS_PER_DAY <= interval)%Z -> (1 <= extract_day interval)%Z.
Proof.
  intros H. unfold extract_day.
  replace 1%Z with (USECS_PER_DAY ÷ USECS_PER_DAY)%Z by reflexivity.
  apply Z.quot_le_mono; [unfold USECS_PER_DAY; lia | exact H].
Qed.

(** ** Cell 18: the decayed query *)

Section DecayedQueryFacts.

Variable decay_rate : R.
Variable now : timestamp.
Variable v : vector.

Let score (e : Element) : option R := decay_score_of decay_rate now v e.
Let scored (s : Store) : list ScoredRow :=
  map (select_scored decay_rate now v) (rows s).
Let ordered (s : Store) : list ScoredRow :=
  order_by (descending decay_score) (scored s).

Lemma decayed_query_unfold (K : nat) (s : Store) :
  decayed_query decay_rate now v K s = firstn K (ordered s).
Proof. reflexivity. Qed.

Lemma ordered_scored_sorted (s : Store) :
  StronglySorted
    (fun a b => desc_nulls_first (decay_score a) (decay_score b) = true)
    (ordered s).
Proof.
  apply (order_by_sorted (descending decay_score)).
  - apply descending_total.
  - apply descending_trans.
Qed.

Lemma in_ordered (s : Store) (r : ScoredRow) :
  In r (ordered s) <->
  exists e, In e (rows s) /\ r = select_scored decay_rate now v e.
Proof.
  unfold ordered, scored. rewrite order_by_In, in_map_iff.
  split; intros [e [H1 H2]]; exists e; split; auto.
Qed.

Lemma in_decayed_query (K : nat) (s : Store) (r : ScoredRow) :
  In r (decayed_query decay_rate now v K s) ->
  In (row_element r) (rows s)
  /\ row_text r = text (row_element r)
  /\ decay_score r = score (row_element r).
Proof.
  rewrite decayed_query_unfold. intros H.
  assert (In r (ordered s)) as Hin.
  { rewrite <- (firstn_skipn K (ordered s)). apply in_or_app. now left. }
  apply in_ordered in Hin. destruct Hin as [e [He ->]]. simpl. auto.
Qed.

End DecayedQueryFacts.

(** What the decayed query computes. For every store, query vector, decay
    rate and limit, the
    decayed query scores each Element that has a date with
    [exp(-λ · age_days · d(embedding, q))]: the distance multiplies the
    exponent, inside the exponential. [age_days] is the whole number of days
    in [now - date] and [d] the L2 distance; an Element without a date has
    no score. Each result row carries a stored Element, its text and this
    score; the rows are in descending order of score (rows without a score
    first); and the result is the first [K] rows of that order, every row
    left out being ordered no earlier than each returned one. *)
Theorem decayed_query_scores_and_order
  (decay_rate : R) (now : timestamp) (v : vector) (K : nat) (s : Store) :
  let score := decay_score_of decay_rate now v in
  let result := decayed_query decay_rate now v K s in
  (forall e d, date e = Some d ->
     score e = Some (exp (- decay_rate * IZR (extract_day (now - d))
                          * l2_distance (embedding e) v)))
  /\ Forall (fun r => In (row_element r) (rows s)
                      /\ row_text r = text (row_element r)
                      /\ decay_score r = score (row_element r)) result
  /\ (forall i j ri rj a b,
        i < j -> nth_error result i = Some ri -> nth_error result j = Some rj ->
        decay_score ri = Some a -> decay_score rj = Some b -> (b <= a)%R)
  /\ (forall i j ri rj,
        i < j -> nth_error result i = Some ri -> nth_error result j = Some rj ->
        decay_score rj = None -> decay_score ri = None)
  /\ List.length result = Nat.min K (List.length (rows s))
  /\ exists others,
       Permutation (result ++ others)
         (map (select_scored decay_rate now v) (rows s))
       /\ forall x y, In x result -> In y others ->
                      desc_nulls_first (decay_score x) (decay_score y) = true.
Proof.
  intros score result.
  assert (StronglySorted
            (fun a b => desc_nulls_first (decay_score a) (decay_score b) = true)
            result) as Hsorted.
  { apply sorted_firstn. apply ordered_scored_sorted. }
  split; [| split; [| split; [| split; [| split]]]].
  - intros e d Hd. unfold score, decay_score_of. rewrite Hd. reflexivity.
  - apply Forall_forall. intros r Hr. now apply in_decayed_query in Hr.
  - intros i j ri rj a b Hij Hi Hj Ha Hb.
    pose proof (sorted_nth_error _ _ Hsorted i j ri rj Hij Hi Hj) as H.
    simpl in H. rewrite Ha, Hb in H. now apply R_leb_le.
  - intros i j ri rj Hij Hi Hj Hnone.
    pose proof (sorted_nth_error _ _ Hsorted i j ri rj Hij Hi Hj) as H.
    simpl in H. rewrite Hnone in H.
    destruct (decay_score ri); [discriminate | reflexivity].
  - unfold result, decayed_query.
    rewrite length_firstn, order_by_length, length_map. reflexivity.
  - exists (skipn K (order_by (descending decay_score)
                       (map (select_scored decay_rate now v) (rows s)))).
    split.
    + unfold result, decayed_query. rewrite firstn_skipn. apply order_by_perm.
    + apply sorted_firstn_skipn. apply ordered_scored_sorted.
Qed.

(** How the computed score moves. For the decayed score as the query
    computes it, with a
    decay rate [λ > 0]: at every fixed non-negative distance the score is
    monotonically non-increasing as [age_days] increases, and at every fixed
    non-negative [age_days] the score is monotonically non-increasing (not
    non-decreasing) as the distance increases. *)
Theorem decay_score_monotone (decay_rate : R) :
  (0 < decay_rate)%R ->
  (forall dist a1 a2,
     (0 <= dist)%R -> (a1 <= a2)%Z ->
     (decay_expr decay_rate a2 dist <= decay_expr decay_rate a1 dist)%R)
  /\ (forall days d1 d2,
        (0 <= days)%Z -> (d1 <= d2)%R ->
        (decay_expr decay_rate days d2 <= decay_expr decay_rate days d1)%R).
Proof.
  intros Hrate. split.
  - intros dist a1 a2 Hdist Hage. apply decay_expr_age; [lra | exact Hdist | exact Hage].
  - intros days d1 d2 Hdays Hd. apply decay_expr_dist; [lra | exact Hdays | exact Hd].
Qed.

(** C10. For every Element whose date is absent (NULL), the score expression
    of the decayed query evaluates to no value: the row the query returns for
    it carries [None] as its [decay_score], and [None] is what the print loop
    receives. *)
Theorem absent_date_has_no_score
  (decay_rate : R) (now : timestamp) (v : vector) (e : Element) :
  date e = None ->
  decay_score_of decay_rate now v e = None
  /\ forall K s r,
       In r (decayed_query decay_rate now v K s) -> row_element r = e ->
       decay_score r = None /\ py_float (decay_score r) = Py.VNone.
Proof.
  intros Hdate.
  assert (decay_score_of decay_rate now v e = None) as Hnone.
  { unfold decay_score_of. now rewrite Hdate. }
  split; [exact Hnone |].
  intros K s r Hr He.
  apply in_decayed_query in Hr. destruct Hr as [_ [_ Hscore]].
  rewrite He in Hscore. rewrite Hscore, Hnone. split; reflexivity.
Qed.

(** ** The print loops *)

Lemma print_filtered_lines (query : list Element) :
  forall stdout,
    print_filtered query stdout =
      stdout ++ map (fun e => [py_id (id e); Py.VStr (text e)]) query.
Proof.
  unfold print_filtered.
  induction query as [| e query IH]; intros stdout; simpl.
  - now rewrite app_nil_r.
  - rewrite IH, <- app_assoc. reflexivity.
Qed.

Lemma print_decayed_lines (query : list ScoredRow) :
  forall stdout,
    print_decayed query stdout =
      stdout
      ++ map (fun r => [py_float (decay_score r); Py.VStr (row_text r)]) query.
Proof.
  unfold print_decayed.
  induction query as [| r query IH]; intros stdout; simpl.
  - now rewrite app_nil_r.
  - rewrite IH, <- app_assoc. reflexivity.
Qed.

(** C8 (as amended). For every query run the output is one printed line per
    result row, appended to what was printed before: the filtered query's
    loop prints the pair (identifier, text) and no score; the decayed
    query's rows hold the Element, its text and its score, and the loop
    prints of them the pair (score, text) and no identifier. *)
Theorem print_loops_emit_pairs
  (c : string) (v : vector) (K : nat) (s : Store)
  (decay_rate : R) (now : timestamp) (stdout : list (list Py.value)) :
  let found := filtered_query c v K s in
  let scored := decayed_query decay_rate now v K s in
  print_filtered found stdout =
    stdout ++ map (fun e => [py_id (id e); Py.VStr (text e)]) found
  /\ Forall (fun r => row_text r = text (row_element r)
                      /\ decay_score r =
                           decay_score_of decay_rate now v (row_element r))
       scored
  /\ print_decayed scored stdout =
       stdout
       ++ map (fun r => [py_float (decay_score r);
                         Py.VStr (text (row_element r))]) scored
  /\ List.length (print_filtered found stdout) =
       List.length stdout + List.length found
  /\ List.length (print_decayed scored stdout) =
       List.length stdout + List.length scored.
Proof.
  intros found scored.
  split; [| split; [| split; [| split]]].
  - apply print_filtered_lines.
  - apply Forall_forall. intros r Hr. apply in_decayed_query in Hr. tauto.
  - rewrite print_decayed_lines. f_equal. apply map_ext_in.
    intros r Hr. apply in_decayed_query in Hr.
    destruct Hr as [_ [Htext _]]. now rewrite Htext.
  - now rewrite print_filtered_lines, length_app, length_map.
  - now rewrite print_decayed_lines, length_app, length_map.
Qed.

(** ** The two query cells of the notebook *)

(** Cells 16 and 18 on the table the load leaves: each prints one line per
    row of its query and at most five lines; the lines of cell 16 are the
    (id, text) of stored rows of category ["NarrativeText"]. *)
Theorem notebook_query_cells
  (listdir : string -> list string)
  (partition_email : string -> list DocElement)
  (embed_query : string -> vector) (now : timestamp) (db : Store) :
  let s := fst (cell13 listdir partition_email embed_query db) in
  let found :=
    filtered_query "NarrativeText" (embed_query "email"%string) 5 s in
  let scored :=
    decayed_query decay_rate now (embed_query "violets"%string) 5 s in
  cell16 listdir partition_email embed_query db =
    map (fun e => [py_id (id e); Py.VStr (text e)]) found
  /\ cell18 listdir partition_email embed_query now db =
       map (fun r => [py_float (decay_score r); Py.VStr (row_text r)]) scored
  /\ List.length (cell16 listdir partition_email embed_query db) <= 5
  /\ List.length (cell18 listdir partition_email embed_query now db) <= 5
  /\ Forall (fun e => category e = "NarrativeText"%string /\ In e (rows s))
       found.
Proof.
  intros s found scored.
  assert (cell16 listdir partition_email embed_query db =
            map (fun e => [py_id (id e); Py.VStr (text e)]) found) as H16
    by apply (print_filtered_lines found []).
  assert (cell18 listdir partition_email embed_query now db =
            map (fun r => [py_float (decay_score r); Py.VStr (row_text r)])
              scored) as H18
    by apply (print_decayed_lines scored []).
  split; [exact H16 | split; [exact H18 | split; [| split]]].
  - rewrite H16, length_map. apply firstn_le_length.
  - rewrite H18, length_map. apply firstn_le_length.
  - apply Forall_forall. intros e He. apply in_filtered_query in He. tauto.
Qed.

(** ** Concrete inputs: vectors and tables *)

Lemma dim_zero_vector : dim zero_vector = ADA_TOKEN_COUNT.
Proof. apply repeat_length. Qed.

Lemma dim_unit_vector : dim unit_vector = ADA_TOKEN_COUNT.
Proof.
  unfold unit_vector, dim. cbn [List.length]. rewrite repeat_length.
  reflexivity.
Qed.

Lemma zero_vector_cons : zero_vector = 0%R :: repeat 0%R (ADA_TOKEN_COUNT - 1).
Proof. reflexivity. Qed.

Lemma l2_distance_unit_zero : l2_distance unit_vector zero_vector = 1%R.
Proof.
  unfold l2_distance. rewrite zero_vector_cons. unfold unit_vector.
  cbn [sum_sq_diff]. rewrite sum_sq_diff_self.
  replace ((1 - 0) * (1 - 0) + 0)%R with 1%R by ring. apply sqrt_1.
Qed.

(** The sample tables are what the bulk insert produces from the empty
    table. *)
Lemma sample_tables_loaded :
  insert_all [violets; roses] empty_store = (two_flowers, Committed)
  /\ insert_all [roses; fresh_roses] empty_store = (old_and_fresh, Committed)
  /\ insert_all [violets] empty_store = (violets_only, Committed)
  /\ insert_all [title] empty_store = (title_only, Committed).
Proof. repeat split. Qed.

(** ** Concrete runs of the queries *)

Lemma sample_age_one_day :
  extract_day (sample_now - (sample_now - USECS_PER_DAY)) = 1%Z.
Proof. reflexivity. Qed.

Lemma score_violets :
  decay_score_of decay_rate sample_now zero_vector (set_id violets 1) = Some 1%R.
Proof.
  unfold decay_score_of.
  change (date (set_id violets 1)) with (Some (sample_now - USECS_PER_DAY)%Z).
  change (embedding (set_id violets 1)) with zero_vector.
  cbv beta iota. rewrite sample_age_one_day, l2_distance_self, decay_expr_dist_zero.
  reflexivity.
Qed.

Lemma score_roses :
  decay_score_of decay_rate sample_now zero_vector (set_id roses 2) =
    Some (decay_expr decay_rate 1 1).
Proof.
  unfold decay_score_of.
  change (date (set_id roses 2)) with (Some (sample_now - USECS_PER_DAY)%Z).
  change (embedding (set_id roses 2)) with unit_vector.
  cbv beta iota. rewrite sample_age_one_day, l2_distance_unit_zero. reflexivity.
Qed.

Lemma decay_rate_positive : (0 < decay_rate)%R.
Proof. unfold decay_rate. lra. Qed.

Lemma decay_one_day_unit_distance : (decay_expr decay_rate 1 1 < 1)%R.
Proof.
  apply decay_expr_below_one; [apply decay_rate_positive | lia | lra].
Qed.


(** A concrete instance: the score of a dated row is the exponential of the
    product. *)
Lemma decayed_query_scores_and_order_witness :
  date (set_id roses 2) = Some (sample_now - USECS_PER_DAY)%Z
  /\ decay_score_of decay_rate sample_now zero_vector (set_id roses 2) =
       Some (exp (- decay_rate
                  * IZR (extract_day (sample_now - (sample_now - USECS_PER_DAY)))
                  * l2_distance (embedding (set_id roses 2)) zero_vector)).
Proof.
  split; [reflexivity |].
  apply (proj1 (decayed_query_scores_and_order decay_rate sample_now zero_vector
                  5 two_flowers)).
  reflexivity.
Defined.


(** At the notebook's decay rate: a row two days old scores no more than a
    row one day old at distance 1, and a row at distance 2 no more than a
    row at distance 1 at the age of one day. *)
Lemma decay_score_monotone_witness :
  (0 < decay_rate)%R
  /\ (decay_expr decay_rate 2 1 <= decay_expr decay_rate 1 1)%R
  /\ (decay_expr decay_rate 1 2 <= decay_expr decay_rate 1 1)%R.
Proof.
  split; [apply decay_rate_positive |].
  destruct (decay_score_monotone decay_rate decay_rate_positive) as [Hage Hdist].
  split.
  - apply Hage; [lra | lia].
  - apply Hdist; [lia | lra].
Defined.

(** C4, refuted as stated. A table holding one Element of category
    ["Title"]: the notebook's query for that Element's own embedding gives
    it the distance 0 but filters on ["NarrativeText"] and returns nothing,
    so the Element is not ranked first. *)
Lemma title_element_is_not_returned :
  let s := title_only in
  let e := set_id title 1 in
  In e (rows s)
  /\ l2_distance (embedding e) (embedding e) = 0%R
  /\ filtered_query "NarrativeText" (embedding e) 5 s = []
  /\ hd_error (filtered_query "NarrativeText" (embedding e) 5 s) <> Some e.
Proof.
  intros s e.
  assert (filtered_query "NarrativeText" (embedding e) 5 s = []) as Hnone
    by reflexivity.
  split; [now left | split; [apply l2_distance_self | split; [exact Hnone |]]].
  rewrite Hnone. discriminate.
Qed.

(** C8, refuted as stated. On a table holding one narrative Element the
    filtered query's loop prints the line (1, text), not the triple with the
    distance, and the decayed query's loop prints the line (score, text),
    not the triple with the identifier. *)
Lemma printed_lines_are_pairs :
  let s := violets_only in
  let out16 :=
    print_filtered (filtered_query "NarrativeText" zero_vector 5 s) [] in
  let out18 :=
    print_decayed (decayed_query decay_rate sample_now zero_vector 5 s) [] in
  out16 = [[Py.VInt 1; Py.VStr "Violets are blue"]]
  /\ out18 = [[Py.VFloat 1; Py.VStr "Violets are blue"]]
  /\ out16 <> [spec_output_tuple (Some 1%Z) "Violets are blue" (Some 0%R)]
  /\ out18 <> [spec_output_tuple (Some 1%Z) "Violets are blue" (Some 1%R)].
Proof.
  intros s out16 out18.
  assert (out16 = [[Py.VInt 1; Py.VStr "Violets are blue"]]) as H16
    by reflexivity.
  assert (out18 = [[Py.VFloat 1; Py.VStr "Violets are blue"]]) as H18.
  { unfold out18, decayed_query.
    change (rows s) with [set_id violets 1].
    cbn [map order_by fold_right insert_sorted firstn].
    unfold print_decayed. cbn [fold_left app select_scored decay_score row_text].
    rewrite score_violets. reflexivity. }
  split; [exact H16 | split; [exact H18 | split]].
  - rewrite H16. unfold spec_output_tuple. discriminate.
  - rewrite H18. unfold spec_output_tuple. discriminate.
Qed.

(** An Element sent an hour ago outranks one sent a day ago at the same
    distance. *)
Example fresh_element_outranks_older :
  decayed_query decay_rate sample_now zero_vector 1 old_and_fresh =
    [ {| row_element := set_id fresh_roses 2;
         row_text := "Roses are red";
         decay_score := Some 1%R |} ].
Proof.
  unfold decayed_query.
  change (rows old_and_fresh) with [set_id roses 1; set_id fresh_roses 2].
  cbn [map order_by fold_right insert_sorted].
  assert (decay_score_of decay_rate sample_now zero_vector (set_id fresh_roses 2)
          = Some 1%R) as Hfresh.
  { unfold decay_score_of.
    change (date (set_id fresh_roses 2)) with (Some (sample_now - 3600000000)%Z).
    cbv beta iota.
    replace (extract_day (sample_now - (sample_now - 3600000000))) with 0%Z
      by reflexivity.
    now rewrite decay_expr_day_zero. }
  assert (decay_score_of decay_rate sample_now zero_vector (set_id roses 1)
          = Some (decay_expr decay_rate 1 1)) as Hold.
  { unfold decay_score_of.
    change (date (set_id roses 1)) with (Some (sample_now - USECS_PER_DAY)%Z).
    change (embedding (set_id roses 1)) with unit_vector.
    cbv beta iota. now rewrite sample_age_one_day, l2_distance_unit_zero. }
  assert (descending decay_score
            (select_scored decay_rate sample_now zero_vector (set_id roses 1))
            (select_scored decay_rate sample_now zero_vector (set_id fresh_roses 2))
          = false) as Hlater.
  { unfold descending. cbn [decay_score select_scored].
    rewrite Hfresh, Hold. cbn [desc_nulls_first].
    apply R_leb_gt. apply decay_one_day_unit_distance. }
  rewrite Hlater. cbn [firstn]. unfold select_scored. now rewrite Hfresh.
Qed.

(** C10, on the element without a date. *)
Lemma absent_date_has_no_score_witness :
  date undated = None
  /\ decay_score_of decay_rate sample_now zero_vector undated = None.
Proof.
  split; [reflexivity |].
  exact (proj1 (absent_date_has_no_score decay_rate sample_now zero_vector
                  undated eq_refl)).
Defined.

(** ** Concrete runs of the store *)

(** C5, on a table reached by one bulk insert, and on an element with three
    coordinates, inserted alone and in a batch. *)
Lemma embedding_dimension_enforced_witness :
  reachable two_flowers
  /\ Forall (fun r => dim (embedding r) = ADA_TOKEN_COUNT) (rows two_flowers)
  /\ dim (embedding short_embedding) <> ADA_TOKEN_COUNT
  /\ insert_all [short_embedding] empty_store =
       (empty_store, Failed (DimensionMismatch 1536 3))
  /\ In short_embedding [violets; short_embedding]
  /\ exists err,
       insert_all [violets; short_embedding] empty_store =
         (empty_store, Failed err).
Proof.
  destruct embedding_dimension_enforced as [_ [Htyped [Hone Hbatch]]].
  assert (reachable two_flowers) as Hreach.
  { change two_flowers with (fst (insert_all [violets; roses] empty_store)).
    apply reachable_insert_all, reachable_empty. }
  assert (dim (embedding short_embedding) <> ADA_TOKEN_COUNT) as Hshort
    by (simpl; unfold ADA_TOKEN_COUNT; lia).
  split; [exact Hreach | split; [exact (Htyped _ Hreach) |]].
  split; [exact Hshort | split; [exact (Hone _ empty_store Hshort) |]].
  split; [right; now left |].
  apply (Hbatch [violets; short_embedding] short_embedding empty_store);
    [right; now left | exact Hshort].
Defined.

(** C6, on the first element inserted into the empty table: it is stored
    and found under the key 1. *)
Lemma insert_then_get_roundtrip_witness :
  id violets = None
  /\ dim (embedding violets) = ADA_TOKEN_COUNT
  /\ sequence_ahead empty_store
  /\ exists s' r,
       insert_all [violets] empty_store = (s', Committed)
       /\ get s' 1 = Some r
       /\ id r = Some 1%Z
       /\ same_content r violets.
Proof.
  split; [reflexivity | split; [exact dim_zero_vector |]].
  split; [exact sequence_ahead_empty |].
  exact (proj1 insert_then_get_roundtrip violets empty_store
           eq_refl dim_zero_vector sequence_ahead_empty).
Defined.

(** ** A concrete run of the load *)

(** The load on a directory of two files, one of them an email, with a
    partitioner that returns one element per file. *)
Lemma notebook_load_commits_witness :
  let listdir (_ : string) := ["fake-email.eml"; "README.md"]%string in
  let partition_email f :=
    [ {| doc_text := "Violets are blue"; doc_category := "NarrativeText";
         doc_metadata := mkMetadata (Some f) None None None None |} ] in
  let embed_query (_ : string) := zero_vector in
  (forall t, dim (embed_query t) = ADA_TOKEN_COUNT)
  /\ sequence_ahead empty_store
  /\ snd (cell13 listdir partition_email embed_query empty_store) = Committed
  /\ map text (rows (fst (cell13 listdir partition_email embed_query empty_store)))
     = ["Violets are blue"%string]
  /\ map id (rows (fst (cell13 listdir partition_email embed_query empty_store)))
     = [Some 1%Z].
Proof.
  intros listdir partition_email embed_query.
  assert (forall t, dim (embed_query t) = ADA_TOKEN_COUNT) as Hdim
    by (intros t; exact dim_zero_vector).
  split; [exact Hdim | split; [exact sequence_ahead_empty |]].
  destruct (notebook_load_commits listdir partition_email embed_query
              empty_store Hdim sequence_ahead_empty) as [_ Hrun].
  rewrite Hrun. repeat split.
Defined.

(* ================================================================== *)
(** * Part III: further properties of the cells *)
(* ================================================================== *)

(** ** Cell 9: how the ingestion loop composes *)

Lemma ingest_fields (ext dir : string)
  (partition_email : string -> list DocElement) (listing : list string) :
  partitioned (ingest ext dir partition_email listing) =
    map (Py.path_join dir) (filter (fun f => Py.endswith f ext) listing)
  /\ elements (ingest ext dir partition_email listing) =
       List.concat
         (map partition_email
            (map (Py.path_join dir)
               (filter (fun f => Py.endswith f ext) listing))).
Proof.
  apply (ingest_loop_from ext dir partition_email listing
           {| elements := []; partitioned := [] |}).
Qed.

Lemma filter_none {A : Type} (f : A -> bool) (l : list A) :
  Forall (fun x => f x = false) l -> filter f l = [].
Proof.
  induction 1 as [| x l Hx _ IH]; simpl; [reflexivity |]. now rewrite Hx.
Qed.

(** The ingestion of two listings one after the other collects what the
    ingestion of each collects, in that order; the number of elements is the
    sum over the matching files of what the partitioner returns for each; and
    a listing without a matching file (the empty directory included) yields
    no element and no call of the partitioner. *)
Theorem ingest_composes
  (ext dir : string) (partition_email : string -> list DocElement)
  (l1 l2 : list string) :
  let run := ingest ext dir partition_email in
  elements (run (l1 ++ l2)) = elements (run l1) ++ elements (run l2)
  /\ partitioned (run (l1 ++ l2)) = partitioned (run l1) ++ partitioned (run l2)
  /\ List.length (elements (run l1)) =
       list_sum (map (fun p => List.length (partition_email p))
                   (partitioned (run l1)))
  /\ (Forall (fun f => Py.endswith f ext = false) l1 ->
      elements (run l1) = [] /\ partitioned (run l1) = []).
Proof.
  intros run. unfold run.
  destruct (ingest_fields ext dir partition_email (l1 ++ l2)) as [Hp He].
  destruct (ingest_fields ext dir partition_email l1) as [Hp1 He1].
  destruct (ingest_fields ext dir partition_email l2) as [Hp2 He2].
  split; [| split; [| split]].
  - rewrite He, He1, He2, filter_app, !map_app, concat_app. reflexivity.
  - rewrite Hp, Hp1, Hp2, filter_app, map_app. reflexivity.
  - rewrite He1, Hp1, length_concat, map_map. reflexivity.
  - intros Hnone. rewrite He1, Hp1, (filter_none _ _ Hnone). split; reflexivity.
Qed.

Lemma ingest_composes_witness :
  let partition_email (f : string) :=
    [ {| doc_text := f; doc_category := "NarrativeText";
         doc_metadata := mkMetadata (Some f) None None None None |} ] in
  Forall (fun f => Py.endswith f ".eml" = false) ["README.md"; "eml"]%string
  /\ elements (ingest ".eml" EXAMPLE_DOCS_DIRECTORY partition_email
                 ["README.md"; "eml"]%string) = []
  /\ partitioned (ingest ".eml" EXAMPLE_DOCS_DIRECTORY partition_email
                    ["README.md"; "eml"]%string) = [].
Proof.
  intros partition_email.
  assert (Forall (fun f => Py.endswith f ".eml" = false)
            ["README.md"; "eml"]%string) as Hnone by (repeat constructor).
  split; [exact Hnone |].
  exact (proj2 (proj2 (proj2 (ingest_composes ".eml" EXAMPLE_DOCS_DIRECTORY
                                partition_email ["README.md"; "eml"]%string []))) Hnone).
Defined.

(** ** Cell 9: the paths handed to the partitioner *)

Lemma append_assoc (a b c : string) :
  ((a ++ b) ++ c)%string = (a ++ (b ++ c))%string.
Proof.
  induction a as [| ch a IH]; simpl; [reflexivity | now rewrite IH].
Qed.

Lemma append_cancel_l (p a b : string) :
  (p ++ a)%string = (p ++ b)%string -> a = b.
Proof.
  induction p as [| ch p IH]; simpl; intros H; [exact H |].
  injection H as H. now apply IH.
Qed.

Lemma startswith_append (p f : string) : Py.startswith (p ++ f) p = true.
Proof.
  unfold Py.startswith. apply prefix_correct.
  induction p as [| ch p IH]; simpl.
  - now destruct f.
  - now rewrite IH.
Qed.

(** [os.path.join] keeps distinct file names distinct (names that do not
    start with a slash, as the names of a directory listing). *)
Lemma path_join_injective (dir f1 f2 : string) :
  Py.startswith f1 "/" = false -> Py.startswith f2 "/" = false ->
  Py.path_join dir f1 = Py.path_join dir f2 -> f1 = f2.
Proof.
  intros H1 H2. unfold Py.path_join. rewrite H1, H2.
  destruct (String.eqb dir "" || Py.endswith dir "/")%bool; intros H.
  - now apply append_cancel_l in H.
  - apply append_cancel_l in H. now apply append_cancel_l in H.
Qed.

Lemma path_join_example_docs (f : string) :
  Py.startswith f "/" = false ->
  Py.path_join EXAMPLE_DOCS_DIRECTORY f = ("../../example-docs/" ++ f)%string.
Proof.
  intros H. unfold Py.path_join. rewrite H. reflexivity.
Qed.

(** For a listing of distinct names, none starting with a slash (what
    [os.listdir] returns), cell 9 hands to the partitioner the path
    ["../../example-docs/" ++ f] of every name [f] ending in [".eml"]: each
    path lies in the examples directory, ends in [".eml"], and occurs once,
    so no file is partitioned twice. A name that does start with a slash
    would be handed over as it is, without the directory. *)
Theorem partitioned_paths
  (partition_email : string -> list DocElement) (listing : list string) :
  Forall (fun f => Py.startswith f "/" = false) listing ->
  NoDup listing ->
  let paths :=
    partitioned (ingest ".eml" EXAMPLE_DOCS_DIRECTORY partition_email listing) in
  paths = map (fun f => ("../../example-docs/" ++ f)%string)
            (filter (fun f => Py.endswith f ".eml") listing)
  /\ NoDup paths
  /\ Forall (fun p => Py.startswith p "../../example-docs/" = true
                      /\ Py.endswith p ".eml" = true) paths
  /\ (forall dir f, Py.startswith f "/" = true -> Py.path_join dir f = f).
Proof.
  intros Hnames Hdistinct paths.
  destruct (ingest_fields ".eml" EXAMPLE_DOCS_DIRECTORY partition_email listing)
    as [Hp _].
  fold paths in Hp.
  assert (paths = map (fun f => ("../../example-docs/" ++ f)%string)
                    (filter (fun f => Py.endswith f ".eml") listing)) as Hshape.
  { rewrite Hp. apply map_ext_in. intros f Hf. apply filter_In in Hf.
    apply path_join_example_docs. rewrite Forall_forall in Hnames.
    apply Hnames. tauto. }
  split; [exact Hshape | split; [| split]].
  - rewrite Hp. apply NoDup_map_NoDup_ForallPairs.
    + intros f1 f2 Hf1 Hf2. apply filter_In in Hf1, Hf2.
      rewrite Forall_forall in Hnames.
      apply path_join_injective; apply Hnames; tauto.
    + now apply NoDup_filter.
  - rewrite Hshape. apply Forall_forall. intros p Hp'.
    apply in_map_iff in Hp'. destruct Hp' as [f [<- Hf]].
    apply filter_In in Hf. destruct Hf as [_ Hf].
    split; [apply startswith_append |].
    apply PyFacts.endswith_iff in Hf. destruct Hf as [q ->].
    apply PyFacts.endswith_iff. exists ("../../example-docs/" ++ q)%string.
    now rewrite append_assoc.
  - intros dir f Hf. unfold Py.path_join. now rewrite Hf.
Qed.

Lemma partitioned_paths_witness :
  let listing := ["fake-email.eml"; "README.md"; "fake-email-attachment.eml"]%string in
  Forall (fun f => Py.startswith f "/" = false) listing
  /\ NoDup listing
  /\ NoDup (partitioned (ingest ".eml" EXAMPLE_DOCS_DIRECTORY
                           (fun _ => []) listing)).
Proof.
  intros listing.
  assert (Forall (fun f => Py.startswith f "/" = false) listing) as Hnames
    by (repeat constructor).
  assert (NoDup listing) as Hdistinct.
  { repeat constructor; simpl; intuition discriminate. }
  split; [exact Hnames | split; [exact Hdistinct |]].
  exact (proj1 (proj2 (partitioned_paths (fun _ => []) listing
                         Hnames Hdistinct))).
Defined.

(** ** Cell 18: what the decayed score ranks by *)

(** The score is [exp] of [-decay_rate] times the age in whole days times the
    distance. *)
Lemma decay_expr_staleness (decay_rate : R) (days : Z) (dist : R) :
  decay_expr decay_rate days dist = exp (- decay_rate * (IZR days * dist)).
Proof. unfold decay_expr. f_equal. ring. Qed.

Lemma decay_expr_strict (decay_rate : R) (a1 a2 : Z) (d1 d2 : R) :
  (0 < decay_rate)%R -> (IZR a1 * d1 < IZR a2 * d2)%R ->
  (decay_expr decay_rate a2 d2 < decay_expr decay_rate a1 d1)%R.
Proof.
  intros Hrate Hlt. rewrite !decay_expr_staleness. apply exp_increasing. nra.
Qed.

(** A row with a strictly higher score stands before one with a lower. *)
Lemma decayed_rank_by_score
  (decay_rate : R) (now : timestamp) (v : vector) (K : nat) (s : Store)
  (i j : nat) (ri rj : ScoredRow) (x y : R) :
  nth_error (decayed_query decay_rate now v K s) i = Some ri ->
  nth_error (decayed_query decay_rate now v K s) j = Some rj ->
  decay_score ri = Some x -> decay_score rj = Some y -> (y < x)%R ->
  i < j.
Proof.
  intros Hi Hj Hx Hy Hlt.
  assert (StronglySorted
            (fun a b => desc_nulls_first (decay_score a) (decay_score b) = true)
            (decayed_query decay_rate now v K s)) as Hsorted.
  { apply sorted_firstn. apply ordered_scored_sorted. }
  destruct (Nat.lt_trichotomy i j) as [Hlt' | [Heq | Hgt]].
  - exact Hlt'.
  - subst j. rewrite Hi in Hj. injection Hj as <-.
    rewrite Hx in Hy. injection Hy as Hxy. lra.
  - pose proof (sorted_nth_error _ _ Hsorted j i rj ri Hgt Hj Hi) as H.
    simpl in H. rewrite Hx, Hy in H. apply R_leb_le in H. lra.
Qed.

Lemma decayed_row_score
  (decay_rate : R) (now : timestamp) (v : vector) (K : nat) (s : Store)
  (r : ScoredRow) (d : timestamp) :
  In r (decayed_query decay_rate now v K s) ->
  date (row_element r) = Some d ->
  decay_score r =
    Some (decay_expr decay_rate (extract_day (now - d))
            (l2_distance (embedding (row_element r)) v)).
Proof.
  intros Hr Hd. apply in_decayed_query in Hr. destruct Hr as [_ [_ Hs]].
  rewrite Hs. unfold decay_score_of. now rewrite Hd.
Qed.

(** With a positive decay rate, of two dated rows of the result the one
    with the strictly smaller staleness (age in whole days times distance)
    stands first. So, of two rows of the same age of at least one day the
    nearer stands first, and of two rows at the same positive distance the
    more recent (in whole days) stands first. *)
Theorem decayed_query_ranks_by_staleness
  (decay_rate : R) (now : timestamp) (v : vector) (K : nat) (s : Store)
  (i j : nat) (ri rj : ScoredRow) (di dj : timestamp) :
  (0 < decay_rate)%R ->
  nth_error (decayed_query decay_rate now v K s) i = Some ri ->
  nth_error (decayed_query decay_rate now v K s) j = Some rj ->
  date (row_element ri) = Some di ->
  date (row_element rj) = Some dj ->
  let age_i := extract_day (now - di) in
  let age_j := extract_day (now - dj) in
  let dist_i := l2_distance (embedding (row_element ri)) v in
  let dist_j := l2_distance (embedding (row_element rj)) v in
  ((IZR age_i * dist_i < IZR age_j * dist_j)%R -> i < j)
  /\ (age_i = age_j -> (1 <= age_i)%Z -> (dist_i < dist_j)%R -> i < j)
  /\ (dist_i = dist_j -> (0 < dist_i)%R -> (age_i < age_j)%Z -> i < j).
Proof.
  intros Hrate Hi Hj Hdi Hdj age_i age_j dist_i dist_j.
  assert ((IZR age_i * dist_i < IZR age_j * dist_j)%R -> i < j) as Hrank.
  { intros Hlt.
    apply (decayed_rank_by_score decay_rate now v K s i j ri rj
             (decay_expr decay_rate age_i dist_i)
             (decay_expr decay_rate age_j dist_j) Hi Hj).
    - apply (decayed_row_score _ _ _ _ _ _ _ (nth_error_In _ _ Hi) Hdi).
    - apply (decayed_row_score _ _ _ _ _ _ _ (nth_error_In _ _ Hj) Hdj).
    - now apply decay_expr_strict. }
  split; [exact Hrank | split].
  - intros Hage Hold Hdist. apply Hrank. rewrite <- Hage.
    apply IZR_le in Hold. nra.
  - intros Hdist Hpos Hage. apply Hrank. rewrite <- Hdist.
    apply IZR_lt in Hage. nra.
Qed.

Lemma decayed_query_ranks_by_staleness_witness :
  (0 < decay_rate)%R
  /\ nth_error (decayed_query decay_rate sample_now zero_vector 5 two_flowers) 0
     = Some (select_scored decay_rate sample_now zero_vector (set_id violets 1))
  /\ nth_error (decayed_query decay_rate sample_now zero_vector 5 two_flowers) 1
     = Some (select_scored decay_rate sample_now zero_vector (set_id roses 2))
  /\ ((1 * 0 < 1 * 1)%R -> 0 < 1).
Proof.
  assert (decayed_query decay_rate sample_now zero_vector 5 two_flowers =
            [select_scored decay_rate sample_now zero_vector (set_id violets 1);
             select_scored decay_rate sample_now zero_vector (set_id roses 2)])
    as Hrun.
  { unfold decayed_query.
    change (rows two_flowers) with [set_id violets 1; set_id roses 2].
    cbn [map order_by fold_right insert_sorted].
    assert (descending decay_score
              (select_scored decay_rate sample_now zero_vector (set_id violets 1))
              (select_scored decay_rate sample_now zero_vector (set_id roses 2))
            = true) as Hfirst.
    { unfold descending. cbn [decay_score select_scored].
      rewrite score_violets, score_roses. cbn [desc_nulls_first].
      apply R_leb_le. left. apply decay_one_day_unit_distance. }
    rewrite Hfirst. reflexivity. }
  assert (nth_error
            (decayed_query decay_rate sample_now zero_vector 5 two_flowers) 0
          = Some (select_scored decay_rate sample_now zero_vector
                    (set_id violets 1))) as H0 by now rewrite Hrun.
  assert (nth_error
            (decayed_query decay_rate sample_now zero_vector 5 two_flowers) 1
          = Some (select_scored decay_rate sample_now zero_vector
                    (set_id roses 2))) as H1 by now rewrite Hrun.
  split; [exact decay_rate_positive |].
  split; [exact H0 | split; [exact H1 |]].
  pose proof (proj1 (decayed_query_ranks_by_staleness decay_rate sample_now
                       zero_vector 5 two_flowers 0 1
                       (select_scored decay_rate sample_now zero_vector
                          (set_id violets 1))
                       (select_scored decay_rate sample_now zero_vector
                          (set_id roses 2))
                       (sample_now - USECS_PER_DAY)%Z
                       (sample_now - USECS_PER_DAY)%Z
                       decay_rate_positive H0 H1 eq_refl eq_refl)) as Hrank.
  cbv zeta in Hrank.
  change (embedding (row_element
            (select_scored decay_rate sample_now zero_vector (set_id violets 1))))
    with zero_vector in Hrank.
  change (embedding (row_element
            (select_scored decay_rate sample_now zero_vector (set_id roses 2))))
    with unit_vector in Hrank.
  rewrite sample_age_one_day, l2_distance_self, l2_distance_unit_zero in Hrank.
  exact Hrank.
Defined.

(** ** Cell 18: rows without a date *)

(** Reordering a list does not change how many of its members pass a test. *)
Lemma count_passing_reordered {A : Type} (test : A -> bool) (before after : list A) :
  Permutation before after ->
  List.length (filter test before) = List.length (filter test after).
Proof.
  intros Hperm. induction Hperm as [| x l l' _ IH | x y l | l l' l'' _ IH1 _ IH2].
  - reflexivity.
  - simpl. destruct (test x); simpl; now rewrite IH.
  - simpl. destruct (test x), (test y); reflexivity.
  - now rewrite IH1.
Qed.

(** In the descending order the rows without a score are a prefix. *)
Lemma unscored_prefix (l : list ScoredRow) :
  StronglySorted
    (fun a b => desc_nulls_first (decay_score a) (decay_score b) = true) l ->
  l = filter unscored l ++ filter (fun r => negb (unscored r)) l.
Proof.
  induction 1 as [| a l Hl IH Ha]; simpl; [reflexivity |].
  destruct (unscored a) eqn:Hun; simpl.
  - now rewrite <- IH.
  - assert (filter unscored l = []) as Hnone.
    { apply filter_none. apply Forall_impl with (2 := Ha).
      intros b Hb. unfold unscored in *.
      destruct (decay_score a); [| discriminate].
      now destruct (decay_score b). }
    rewrite Hnone in *. simpl in *. now rewrite <- IH.
Qed.

Lemma unscored_select
  (decay_rate : R) (now : timestamp) (v : vector) (e : Element) :
  unscored (select_scored decay_rate now v e) = undated_row e.
Proof.
  unfold unscored, undated_row, select_scored, decay_score_of. simpl.
  now destruct (date e).
Qed.

(** The rows without a score, in the order of the query, are as many as the
    undated rows of the table. *)
Lemma unscored_count
  (decay_rate : R) (now : timestamp) (v : vector) (s : Store) :
  List.length
    (filter unscored
       (order_by (descending decay_score)
          (map (select_scored decay_rate now v) (rows s)))) =
  List.length (filter undated_row (rows s)).
Proof.
  rewrite (count_passing_reordered unscored _ _ (order_by_perm _ _)).
  rewrite filter_map_swap, length_map. f_equal.
  apply filter_ext. intros e. apply unscored_select.
Qed.

(** Elements without a date have no score, and the descending order puts
    them first: they stand before every dated row of the result; when the
    table holds at least [K] of them the result consists of undated rows
    only, and otherwise every undated Element of the table is returned. *)
Theorem undated_rows_come_first
  (decay_rate : R) (now : timestamp) (v : vector) (K : nat) (s : Store) :
  let undated := filter undated_row (rows s) in
  let result := decayed_query decay_rate now v K s in
  (K <= List.length undated ->
     List.length result = K
     /\ Forall (fun r => decay_score r = None /\ date (row_element r) = None)
          result)
  /\ (List.length undated <= K ->
      forall e, In e (rows s) -> date e = None ->
                In (select_scored decay_rate now v e) result)
  /\ (forall i j ri rj,
        nth_error result i = Some ri -> nth_error result j = Some rj ->
        date (row_element ri) = None -> date (row_element rj) <> None ->
        i < j).
Proof.
  intros undated result.
  set (ordered := order_by (descending decay_score)
                    (map (select_scored decay_rate now v) (rows s))).
  assert (StronglySorted
            (fun a b => desc_nulls_first (decay_score a) (decay_score b) = true)
            ordered) as Hsorted by apply ordered_scored_sorted.
  pose proof (unscored_prefix ordered Hsorted) as Hsplit.
  pose proof (unscored_count decay_rate now v s) as Hcount.
  fold ordered in Hcount. fold undated in Hcount.
  assert (result = firstn K ordered) as Hres by reflexivity.
  split; [| split].
  - intros HK.
    assert (result = firstn K (filter unscored ordered)) as Hfirst.
    { rewrite Hres. rewrite Hsplit at 1. rewrite firstn_app.
      replace (K - List.length (filter unscored ordered)) with 0 by lia.
      simpl. apply app_nil_r. }
    split.
    + rewrite Hfirst, length_firstn. lia.
    + apply Forall_forall. intros r Hr.
      assert (unscored r = true) as Hnone.
      { rewrite Hfirst in Hr.
        assert (In r (filter unscored ordered)) as Hin.
        { rewrite <- (firstn_skipn K (filter unscored ordered)).
          apply in_or_app. now left. }
        apply filter_In in Hin. tauto. }
      apply in_decayed_query in Hr. destruct Hr as [_ [_ Hscore]].
      unfold unscored in Hnone. rewrite Hscore in *.
      unfold decay_score_of in *.
      destruct (date (row_element r)); [discriminate | split; reflexivity].
  - intros HK e He Hdate.
    assert (In (select_scored decay_rate now v e) (filter unscored ordered))
      as Hin.
    { apply filter_In. split.
      - apply order_by_In. now apply in_map.
      - rewrite unscored_select. unfold undated_row. now rewrite Hdate. }
    rewrite Hres. rewrite Hsplit, firstn_app.
    apply in_or_app. left. rewrite firstn_all2; [exact Hin | lia].
  - intros i j ri rj Hi Hj Hnone Hsome.
    pose proof (in_decayed_query decay_rate now v K s ri (nth_error_In _ _ Hi))
      as [_ [_ Hsi]].
    pose proof (in_decayed_query decay_rate now v K s rj (nth_error_In _ _ Hj))
      as [_ [_ Hsj]].
    unfold decay_score_of in Hsi, Hsj. rewrite Hnone in Hsi.
    destruct (date (row_element rj)) as [dj |]; [| contradiction].
    assert (StronglySorted
              (fun a b => desc_nulls_first (decay_score a) (decay_score b) = true)
              result) as Hsorted' by (apply sorted_firstn; exact Hsorted).
    destruct (Nat.lt_trichotomy i j) as [Hlt | [Heq | Hgt]].
    + exact Hlt.
    + subst j. rewrite Hi in Hj. injection Hj as <-.
      rewrite Hsi in Hsj. discriminate.
    + pose proof (sorted_nth_error _ _ Hsorted' j i rj ri Hgt Hj Hi) as H.
      simpl in H. rewrite Hsi, Hsj in H. discriminate.
Qed.

Lemma undated_rows_come_first_witness :
  1 <= List.length (filter undated_row (rows dated_then_undated))
  /\ Forall (fun r => decay_score r = None /\ date (row_element r) = None)
       (decayed_query decay_rate sample_now zero_vector 1 dated_then_undated).
Proof.
  assert (1 <= List.length (filter undated_row (rows dated_then_undated)))
    as Hone by (simpl; lia).
  split; [exact Hone |].
  exact (proj2 (proj1 (undated_rows_come_first decay_rate sample_now
                         zero_vector 1 dated_then_undated) Hone)).
Defined.

(** ** Cell 18: dates after [NOW()] *)

Lemma extract_day_within_a_day (interval : Z) :
  (- USECS_PER_DAY < interval < USECS_PER_DAY)%Z -> extract_day interval = 0%Z.
Proof.
  intros H. unfold extract_day. apply Z.quot_small_iff.
  - unfold USECS_PER_DAY. lia.
  - unfold USECS_PER_DAY in *. lia.
Qed.

Lemma extract_day_future (interval : Z) :
  (interval <= - USECS_PER_DAY)%Z -> (extract_day interval <= -1)%Z.
Proof.
  intros H. unfold extract_day.
  replace (-1)%Z with (- USECS_PER_DAY ÷ USECS_PER_DAY)%Z by reflexivity.
  apply Z.quot_le_mono; [unfold USECS_PER_DAY; lia | exact H].
Qed.

Lemma decay_expr_above_one (decay_rate dist : R) (days : Z) :
  (0 < decay_rate)%R -> (days <= -1)%Z -> (0 < dist)%R ->
  (1 < decay_expr decay_rate days dist)%R.
Proof.
  intros Hrate Hdays Hdist. unfold decay_expr. rewrite <- exp_0.
  apply exp_increasing. apply IZR_le in Hdays.
  assert (0 < decay_rate * dist)%R by now apply Rmult_lt_0_compat.
  nra.
Qed.

Lemma decay_expr_at_most_one (decay_rate dist : R) (days : Z) :
  (0 < decay_rate)%R -> (0 <= days)%Z -> (0 <= dist)%R ->
  (decay_expr decay_rate days dist <= 1)%R.
Proof.
  intros Hrate Hdays Hdist.
  rewrite <- (decay_expr_day_zero decay_rate dist).
  apply decay_expr_age; [lra | exact Hdist | exact Hdays].
Qed.

(** The whole days are taken toward zero, so an Element dated less than a
    day before or after now has the age 0. With a positive decay rate an
    Element dated a whole day or more after now, at a positive distance,
    scores above 1, and in the result it stands before every Element dated
    at or before now. *)
Theorem future_dated_rows_rank_first
  (decay_rate : R) (now : timestamp) (v : vector) (K : nat) (s : Store) :
  (0 < decay_rate)%R ->
  let result := decayed_query decay_rate now v K s in
  (forall d, (- USECS_PER_DAY < now - d < USECS_PER_DAY)%Z ->
             extract_day (now - d) = 0%Z)
  /\ (forall e d,
        date e = Some d -> (USECS_PER_DAY <= d - now)%Z ->
        (0 < l2_distance (embedding e) v)%R ->
        exists x, decay_score_of decay_rate now v e = Some x /\ (1 < x)%R)
  /\ (forall i j ri rj di dj,
        nth_error result i = Some ri -> nth_error result j = Some rj ->
        date (row_element ri) = Some di -> (USECS_PER_DAY <= di - now)%Z ->
        (0 < l2_distance (embedding (row_element ri)) v)%R ->
        date (row_element rj) = Some dj -> (dj <= now)%Z ->
        i < j).
Proof.
  intros Hrate result. split; [| split].
  - intros d Hd. now apply extract_day_within_a_day.
  - intros e d Hd Hfuture Hdist. unfold decay_score_of. rewrite Hd.
    eexists. split; [reflexivity |].
    apply decay_expr_above_one; [exact Hrate | | exact Hdist].
    apply extract_day_future. lia.
  - intros i j ri rj di dj Hi Hj Hdi Hfuture Hdist Hdj Hpast.
    apply (decayed_rank_by_score decay_rate now v K s i j ri rj _ _ Hi Hj
             (decayed_row_score _ _ _ _ _ _ _ (nth_error_In _ _ Hi) Hdi)
             (decayed_row_score _ _ _ _ _ _ _ (nth_error_In _ _ Hj) Hdj)).
    apply Rle_lt_trans with 1%R.
    + apply decay_expr_at_most_one; [exact Hrate | | apply l2_distance_nonneg].
      apply extract_day_nonneg. lia.
    + apply decay_expr_above_one; [exact Hrate | | exact Hdist].
      apply extract_day_future. lia.
Qed.

Lemma future_dated_rows_rank_first_witness :
  (0 < decay_rate)%R
  /\ (- USECS_PER_DAY < sample_now - (sample_now + 3600000000) < USECS_PER_DAY)%Z
  /\ extract_day (sample_now - (sample_now + 3600000000)) = 0%Z.
Proof.
  assert (- USECS_PER_DAY < sample_now - (sample_now + 3600000000)
          < USECS_PER_DAY)%Z as Hnear
    by (unfold sample_now, USECS_PER_DAY; lia).
  split; [exact decay_rate_positive | split; [exact Hnear |]].
  exact (proj1 (future_dated_rows_rank_first decay_rate sample_now zero_vector
                  5 two_flowers decay_rate_positive)
           (sample_now + 3600000000)%Z Hnear).
Defined.

(** ** Which rows the two queries consider *)

(** With a limit that covers them, the filtered query returns exactly the
    stored rows of the category, each once, and the decayed query every
    stored row, whatever its category; a row of another category, stored
    anywhere in the table, does not change the result of the filtered
    query. *)
Theorem query_row_coverage
  (c : string) (v : vector) (K : nat) (s : Store)
  (decay_rate : R) (now : timestamp) :
  let matching := filter (fun e => String.eqb (category e) c) (rows s) in
  (List.length matching <= K ->
     Permutation (filtered_query c v K s) matching)
  /\ (List.length (rows s) <= K ->
      Permutation (map row_element (decayed_query decay_rate now v K s))
        (rows s))
  /\ (forall earlier later e next,
        rows s = earlier ++ e :: later -> category e <> c ->
        filtered_query c v K s =
          filtered_query c v K {| rows := earlier ++ later; next_id := next |}).
Proof.
  intros matching. split; [| split].
  - intros HK. unfold filtered_query. fold matching.
    rewrite firstn_all2; [apply order_by_perm |].
    now rewrite order_by_length.
  - intros HK. unfold decayed_query.
    rewrite firstn_all2.
    + apply perm_trans
        with (map row_element (map (select_scored decay_rate now v) (rows s))).
      * apply Permutation_map. apply order_by_perm.
      * rewrite map_map. simpl. rewrite map_id. apply Permutation_refl.
    + now rewrite order_by_length, length_map.
  - intros earlier later e next Hrows Hcat. unfold filtered_query. simpl.
    rewrite Hrows, !filter_app. simpl.
    apply String.eqb_neq in Hcat. now rewrite Hcat.
Qed.

Lemma query_row_coverage_witness :
  List.length (rows two_flowers) <= 5
  /\ Permutation
       (map row_element
          (decayed_query decay_rate sample_now zero_vector 5 two_flowers))
       (rows two_flowers).
Proof.
  assert (List.length (rows two_flowers) <= 5) as Hfew by (simpl; lia).
  split; [exact Hfew |].
  exact (proj1 (proj2 (query_row_coverage "NarrativeText" zero_vector 5
                         two_flowers decay_rate sample_now)) Hfew).
Defined.

(** ** The primary key *)

Lemma fresh_key_not_stored (key : Z) (l : list Element) :
  existsb (has_id key) l = false -> ~ In (Some key) (map id l).
Proof.
  intros Hex Hin. apply in_map_iff in Hin. destruct Hin as [r [Hid Hr]].
  assert (existsb (has_id key) l = true) as Htrue.
  { apply existsb_exists. exists r. split; [exact Hr |].
    unfold has_id. rewrite Hid. apply Z.eqb_refl. }
  rewrite Htrue in Hex. discriminate.
Qed.

Lemma insert_row_keys (e : Element) (s s' : Store) :
  insert_row e s = inr s' -> keys_unique s -> keys_unique s'.
Proof.
  intros H [Hnodup Hsome]. apply insert_row_inr in H.
  destruct H as [_ [key [Hrows [Hex _]]]].
  unfold keys_unique. rewrite Hrows, map_app. simpl. split.
  - apply NoDup_app; [exact Hnodup | repeat constructor; intros [] |].
    intros a Ha [<- | []]. now apply (fresh_key_not_stored key (rows s)).
  - apply Forall_app. split; [exact Hsome |].
    constructor; [discriminate | constructor].
Qed.

Lemma flush_keys (items : list Element) :
  forall s s', flush items s = inr s' -> keys_unique s -> keys_unique s'.
Proof.
  induction items as [| e items IH]; intros s s' H Hs; simpl in H.
  - now injection H as <-.
  - destruct (insert_row e s) as [err | s1] eqn:He; [discriminate |].
    apply (IH s1 s' H). now apply (insert_row_keys e s).
Qed.

Lemma reachable_keys (s : Store) : reachable s -> keys_unique s.
Proof.
  induction 1 as [| items s Hs IH].
  - split; constructor.
  - unfold insert_all. destruct (flush items s) as [err | s'] eqn:Hf; simpl.
    + exact IH.
    + now apply (flush_keys items s).
Qed.

Lemma NoDup_map_filter {A B : Type} (g : A -> B) (f : A -> bool) (l : list A) :
  NoDup (map g l) -> NoDup (map g (filter f l)).
Proof.
  induction l as [| a l IH]; simpl; intros H; [constructor |].
  apply NoDup_cons_iff in H. destruct H as [Hnot Hrest].
  destruct (f a); simpl; [| now apply IH].
  constructor; [| now apply IH].
  intros Hin. apply Hnot. apply in_map_iff in Hin.
  destruct Hin as [x [Hx Hin]]. apply filter_In in Hin.
  apply in_map_iff. exists x. tauto.
Qed.

Lemma filtered_query_keys (c : string) (v : vector) (K : nat) (s : Store) :
  NoDup (map id (rows s)) -> NoDup (map id (filtered_query c v K s)).
Proof.
  intros H. unfold filtered_query.
  set (matching := filter _ (rows s)).
  set (ordered := order_by _ matching).
  assert (NoDup (map id ordered)) as Hordered.
  { apply Permutation_NoDup with (map id matching).
    - apply Permutation_map, Permutation_sym, order_by_perm.
    - now apply NoDup_map_filter. }
  rewrite <- (firstn_skipn K ordered), map_app in Hordered.
  now apply NoDup_app_remove_r in Hordered.
Qed.

(** In every table reached from the empty one by bulk inserts each row has
    a key and no two rows share one. So the rows the filtered query returns
    have distinct keys, and its print loop prints an integer id on every
    line, never [None] and never the same id twice. *)
Theorem primary_keys_are_unique (s : Store) :
  reachable s ->
  NoDup (map id (rows s))
  /\ Forall (fun r => exists k, id r = Some k) (rows s)
  /\ forall c v K,
       let printed := print_filtered (filtered_query c v K s) [] in
       NoDup (map id (filtered_query c v K s))
       /\ Forall (fun line => exists k txt, line = [Py.VInt k; Py.VStr txt])
            printed
       /\ NoDup (map (fun line => hd Py.VNone line) printed).
Proof.
  intros Hreach. destruct (reachable_keys s Hreach) as [Hnodup Hsome].
  assert (forall r, In r (rows s) -> exists k, id r = Some k) as Hkey.
  { intros r Hr. rewrite Forall_forall in Hsome. specialize (Hsome r Hr).
    destruct (id r) as [k |]; [now exists k | contradiction]. }
  split; [exact Hnodup | split; [now apply Forall_forall |]].
  intros c v K printed.
  pose proof (filtered_query_keys c v K s Hnodup) as Hres.
  assert (printed = map (fun e => [py_id (id e); Py.VStr (text e)])
                      (filtered_query c v K s)) as Hprinted
    by apply (print_filtered_lines _ []).
  split; [exact Hres | split].
  - rewrite Hprinted. apply Forall_forall. intros line Hline.
    apply in_map_iff in Hline. destruct Hline as [e [<- He]].
    apply in_filtered_query in He. destruct He as [He _].
    destruct (Hkey e He) as [k Hk]. exists k, (text e). now rewrite Hk.
  - rewrite Hprinted, map_map. simpl.
    assert (map (fun e => py_id (id e)) (filtered_query c v K s) =
              map py_id (map id (filtered_query c v K s))) as ->
      by now rewrite map_map.
    apply NoDup_map_NoDup_ForallPairs; [| exact Hres].
    intros x y _ _. destruct x, y; simpl; intros H; congruence.
Qed.

Lemma primary_keys_are_unique_witness :
  reachable two_flowers /\ NoDup (map id (rows two_flowers)).
Proof.
  assert (reachable two_flowers) as Hreach.
  { change two_flowers with (fst (insert_all [violets; roses] empty_store)).
    apply reachable_insert_all, reachable_empty. }
  split; [exact Hreach |].
  exact (proj1 (primary_keys_are_unique two_flowers Hreach)).
Defined.

(** ** Running the load twice *)

Lemma assign_ids_keys (items : list Element) :
  forall first,
    Forall (fun r => exists k, id r = Some k
                               /\ (first <= k < first + Z.of_nat (List.length items))%Z)
      (assign_ids items first).
Proof.
  induction items as [| e items IH]; intros first; simpl; [constructor |].
  constructor.
  - exists first. simpl. split; [reflexivity | lia].
  - apply Forall_impl with (2 := IH (first + 1)%Z).
    intros r [k [Hk Hrange]]. exists k. split; [exact Hk | lia].
Qed.

Lemma assign_ids_twice (items : list Element) :
  forall n m, n <> m ->
    Forall2 (fun a b => same_content a b /\ id a <> id b)
      (assign_ids items n) (assign_ids items m).
Proof.
  induction items as [| e items IH]; intros n m Hnm; simpl; constructor.
  - split.
    + unfold same_content. simpl. repeat split.
    + simpl. congruence.
  - apply IH. lia.
Qed.

Lemma assign_ids_length (items : list Element) :
  forall first, List.length (assign_ids items first) = List.length items.
Proof.
  induction items as [| e items IH]; intros first; simpl; [reflexivity |].
  now rewrite IH.
Qed.

Lemma assign_ids_In (items : list Element) (e : Element) :
  In e items -> forall first, exists k, In (set_id e k) (assign_ids items first).
Proof.
  induction items as [| e0 items IH]; intros Hin first; [contradiction |].
  destruct Hin as [-> | Hin].
  - exists first. now left.
  - destruct (IH Hin (first + 1)%Z) as [k Hk]. exists k. now right.
Qed.

(** New objects of the column's dimension, inserted in bulk into a table
    whose keys came from the sequence: the insert commits, and the sequence
    stays ahead of the keys. *)
Lemma insert_all_new_items (items : list Element) (s : Store) :
  Forall (fun e => id e = None /\ dim (embedding e) = ADA_TOKEN_COUNT) items ->
  sequence_ahead s ->
  let s' := {| rows := rows s ++ assign_ids items (next_id s);
               next_id := next_id s + Z.of_nat (List.length items) |} in
  insert_all items s = (s', Committed) /\ sequence_ahead s'.
Proof.
  intros Hitems Hseq s'. split.
  - unfold insert_all. now rewrite (flush_new_items items s Hitems Hseq).
  - unfold sequence_ahead, s'. simpl. apply Forall_app. split.
    + apply Forall_impl with (2 := Hseq). intros r [k [Hk Hlt]].
      exists k. split; [exact Hk | lia].
    + apply Forall_impl with (2 := assign_ids_keys items (next_id s)).
      intros r [k [Hk Hrange]]. exists k. split; [exact Hk | lia].
Qed.

Lemma cell12_items
  (listdir : string -> list string)
  (partition_email : string -> list DocElement)
  (embed_query : string -> vector) :
  (forall t, dim (embed_query t) = ADA_TOKEN_COUNT) ->
  cell12 listdir partition_email embed_query =
    map (fun el => new_Element {| element := el;
                                  element_embedding := embed_query (doc_text el) |})
      (cell9 listdir partition_email)
  /\ Forall (fun e => id e = None /\ dim (embedding e) = ADA_TOKEN_COUNT)
       (cell12 listdir partition_email embed_query).
Proof.
  intros Hdim.
  assert (cell12 listdir partition_email embed_query =
            map (fun el => new_Element
                             {| element := el;
                                element_embedding := embed_query (doc_text el) |})
              (cell9 listdir partition_email)) as Hitems.
  { unfold cell12, cell11, embed_elements.
    now rewrite items_to_add_map, map_map. }
  split; [exact Hitems |].
  rewrite Hitems. apply Forall_forall. intros e He.
  apply in_map_iff in He. destruct He as [el [<- _]]. simpl.
  split; [reflexivity | apply Hdim].
Qed.

(** The load has no deduplication: run a second time on the same directory
    it commits again and appends every element once more, with the same
    content as the row of the first run and a different id. *)
Theorem reload_duplicates_rows
  (listdir : string -> list string)
  (partition_email : string -> list DocElement)
  (embed_query : string -> vector) (db : Store) :
  (forall t, dim (embed_query t) = ADA_TOKEN_COUNT) ->
  sequence_ahead db ->
  let first_run := cell13 listdir partition_email embed_query db in
  let second_run := cell13 listdir partition_email embed_query (fst first_run) in
  snd first_run = Committed
  /\ snd second_run = Committed
  /\ exists batch1 batch2,
       rows (fst first_run) = rows db ++ batch1
       /\ rows (fst second_run) = rows db ++ batch1 ++ batch2
       /\ List.length batch1 = List.length (cell9 listdir partition_email)
       /\ Forall2 (fun a b => same_content a b /\ id a <> id b) batch1 batch2.
Proof.
  intros Hdim Hseq first_run second_run.
  destruct (cell12_items listdir partition_email embed_query Hdim)
    as [Hitems Hnew].
  set (items := cell12 listdir partition_email embed_query) in *.
  destruct (insert_all_new_items items db Hnew Hseq) as [Hrun1 Hseq1].
  assert (first_run =
            ({| rows := rows db ++ assign_ids items (next_id db);
                next_id := next_id db + Z.of_nat (List.length items) |},
             Committed)) as Hfirst by exact Hrun1.
  destruct (insert_all_new_items items _ Hnew Hseq1) as [Hrun2 _].
  assert (second_run =
            ({| rows := (rows db ++ assign_ids items (next_id db))
                        ++ assign_ids items
                             (next_id db + Z.of_nat (List.length items));
                next_id := next_id db + Z.of_nat (List.length items)
                           + Z.of_nat (List.length items) |},
             Committed)) as Hsecond.
  { unfold second_run. rewrite Hfirst. exact Hrun2. }
  rewrite Hfirst, Hsecond. simpl.
  split; [reflexivity | split; [reflexivity |]].
  exists (assign_ids items (next_id db)),
    (assign_ids items (next_id db + Z.of_nat (List.length items))).
  split; [reflexivity | split; [now rewrite app_assoc | split]].
  - rewrite assign_ids_length, Hitems. apply length_map.
  - clear Hfirst Hsecond Hrun1 Hrun2 Hseq1 Hnew Hitems.
    clearbody items. destruct items as [| e items'].
    + constructor.
    + apply assign_ids_twice. simpl List.length. lia.
Qed.

Lemma reload_duplicates_rows_witness :
  let listdir (_ : string) := ["fake-email.eml"; "README.md"]%string in
  let partition_email f :=
    [ {| doc_text := "Violets are blue"; doc_category := "NarrativeText";
         doc_metadata := mkMetadata (Some f) None None None None |} ] in
  let embed_query (_ : string) := zero_vector in
  (forall t, dim (embed_query t) = ADA_TOKEN_COUNT)
  /\ sequence_ahead empty_store
  /\ snd (cell13 listdir partition_email embed_query
            (fst (cell13 listdir partition_email embed_query empty_store)))
     = Committed.
Proof.
  intros listdir partition_email embed_query.
  assert (forall t, dim (embed_query t) = ADA_TOKEN_COUNT) as Hdim
    by (intros t; exact dim_zero_vector).
  split; [exact Hdim | split; [exact sequence_ahead_empty |]].
  exact (proj1 (proj2 (reload_duplicates_rows listdir partition_email
                         embed_query empty_store Hdim sequence_ahead_empty))).
Defined.

(** ** Searching for a stored text *)

(** When a stored row of the category is at distance 0 from the query
    vector and the limit is positive, the first result is at distance 0. *)
Lemma first_result_at_zero
  (c : string) (v : vector) (K : nat) (s : Store) (e : Element) :
  In e (rows s) -> category e = c -> 0 < K ->
  l2_distance (embedding e) v = 0%R ->
  exists e0 rest,
    filtered_query c v K s = e0 :: rest
    /\ l2_distance (embedding e0) v = 0%R.
Proof.
  intros He Hcat HK Hzero. destruct K as [| K]; [lia |].
  unfold filtered_query. set (ordered := order_by _ _).
  assert (StronglySorted
            (fun a b => (l2_distance (embedding a) v
                         <= l2_distance (embedding b) v)%R) ordered)
    as Hsorted by apply ordered_selected_sorted.
  assert (In e ordered) as Hin.
  { apply order_by_In. apply filter_In. split; [exact He |].
    rewrite Hcat. apply String.eqb_refl. }
  clearbody ordered. destruct ordered as [| e0 rest]; [contradiction |].
  exists e0, (firstn K rest). split; [reflexivity |].
  apply StronglySorted_inv in Hsorted. destruct Hsorted as [_ Hall].
  assert (l2_distance (embedding e0) v <= l2_distance (embedding e) v)%R
    as Hle.
  { destruct Hin as [-> | Hin]; [lra |].
    rewrite Forall_forall in Hall. now apply Hall. }
  pose proof (l2_distance_nonneg (embedding e0) v). lra.
Qed.

(** After the load, the notebook's filtered query for the exact text of an
    ingested narrative element (embedded by the same function) returns at
    least one row, and its first row is at distance 0 from the query
    vector. *)
Theorem search_for_ingested_text
  (listdir : string -> list string)
  (partition_email : string -> list DocElement)
  (embed_query : string -> vector) (db : Store) (el : DocElement) :
  (forall t, dim (embed_query t) = ADA_TOKEN_COUNT) ->
  sequence_ahead db ->
  In el (cell9 listdir partition_email) ->
  doc_category el = "NarrativeText"%string ->
  let vector := embed_query (doc_text el) in
  exists first rest,
    filtered_query "NarrativeText" vector 5
      (fst (cell13 listdir partition_email embed_query db)) = first :: rest
    /\ l2_distance (embedding first) vector = 0%R
    /\ category first = "NarrativeText"%string.
Proof.
  intros Hdim Hseq Hel Hcat vector.
  destruct (cell12_items listdir partition_email embed_query Hdim)
    as [Hitems Hnew].
  destruct (insert_all_new_items _ db Hnew Hseq) as [Hrun _].
  unfold cell13 at 1. rewrite Hrun. simpl fst.
  set (item := new_Element {| element := el;
                              element_embedding := embed_query (doc_text el) |}).
  assert (In item (cell12 listdir partition_email embed_query)) as Hitem.
  { rewrite Hitems. apply in_map_iff. now exists el. }
  destruct (assign_ids_In _ item Hitem (next_id db)) as [k Hk].
  destruct (first_result_at_zero "NarrativeText" vector 5
              {| rows := rows db
                         ++ assign_ids
                              (cell12 listdir partition_email embed_query)
                              (next_id db);
                 next_id := next_id db
                            + Z.of_nat
                                (List.length
                                   (cell12 listdir partition_email embed_query)) |}
              (set_id item k))
    as [first [rest [Hres Hzero]]].
  - simpl. apply in_or_app. now right.
  - exact Hcat.
  - lia.
  - simpl. apply l2_distance_self.
  - exists first, rest. split; [exact Hres | split; [exact Hzero |]].
    assert (In first (first :: rest)) as Hin by now left.
    rewrite <- Hres in Hin. apply in_filtered_query in Hin. tauto.
Qed.

Lemma search_for_ingested_text_witness :
  let listdir (_ : string) := ["fake-email.eml"; "README.md"]%string in
  let doc f :=
    {| doc_text := "Violets are blue"; doc_category := "NarrativeText";
       doc_metadata := mkMetadata (Some f) None None None None |} in
  let partition_email f := [doc f] in
  let embed_query (_ : string) := zero_vector in
  (forall t, dim (embed_query t) = ADA_TOKEN_COUNT)
  /\ sequence_ahead empty_store
  /\ In (doc "../../example-docs/fake-email.eml"%string)
       (cell9 listdir partition_email)
  /\ exists first rest,
       filtered_query "NarrativeText" zero_vector 5
         (fst (cell13 listdir partition_email embed_query empty_store))
       = first :: rest
       /\ l2_distance (embedding first) zero_vector = 0%R
       /\ category first = "NarrativeText"%string.
Proof.
  intros listdir doc partition_email embed_query.
  assert (forall t, dim (embed_query t) = ADA_TOKEN_COUNT) as Hdim
    by (intros t; exact dim_zero_vector).
  assert (In (doc "../../example-docs/fake-email.eml"%string)
            (cell9 listdir partition_email)) as Hin by (now left).
  split; [exact Hdim | split; [exact sequence_ahead_empty |]].
  split; [exact Hin |].
  exact (search_for_ingested_text listdir partition_email embed_query
           empty_store (doc "../../example-docs/fake-email.eml"%string)
           Hdim sequence_ahead_empty Hin eq_refl).
Defined.

(* ================================================================== *)
(** * Part IV: ranks that do not depend on the order among ties *)
(* ================================================================== *)

Section SortedSplit.

Context {A : Type}.
Variable before : A -> A -> Prop.
Variable leading : A -> bool.

(** Whatever may stand before a leading row is a leading row. *)
Hypothesis leading_closed :
  forall a b, before a b -> leading b = true -> leading a = true.

(** In an ordered list the leading rows are a prefix. *)
Lemma sorted_split (l : list A) :
  StronglySorted before l ->
  l = filter leading l ++ filter (fun x => negb (leading x)) l.
Proof.
  induction 1 as [| a l Hl IH Ha]; simpl; [reflexivity |].
  destruct (leading a) eqn:Hlead; simpl.
  - now rewrite <- IH.
  - assert (filter leading l = []) as Hnone.
    { apply filter_none. apply Forall_forall. intros b Hb.
      rewrite Forall_forall in Ha.
      destruct (leading b) eqn:Hb'; [| reflexivity].
      rewrite (leading_closed a b (Ha b Hb) Hb') in Hlead. discriminate. }
    rewrite Hnone in *. simpl in *. now rewrite <- IH.
Qed.

(** When at most [K] rows are leading, LIMIT [K] keeps all of them. *)
Lemma leading_rows_kept (K : nat) (l : list A) (x : A) :
  StronglySorted before l ->
  List.length (filter leading l) <= K ->
  In x l -> leading x = true -> In x (firstn K l).
Proof.
  intros Hsorted HK Hx Hlead.
  rewrite (sorted_split l Hsorted), firstn_app.
  apply in_or_app. left. rewrite firstn_all2; [| exact HK].
  apply filter_In. now split.
Qed.

End SortedSplit.

(** ** Cell 16: the query for a stored embedding *)

(** C4 (as amended). When a stored Element [e] has the category the query
    filters on and the limit is at least 1, the query for [e]'s own embedding
    gives [e] the distance 0 and its first result is a row of the category
    at distance 0. [e] is returned whenever at most [K] rows of the category
    are at distance 0, and it is the first result when it is the only such
    row; which of several rows at distance 0 comes first is not stated. *)
Theorem own_embedding_ranks_first
  (c : string) (K : nat) (s : Store) (earlier later : list Element)
  (e : Element) :
  rows s = earlier ++ e :: later ->
  category e = c ->
  0 < K ->
  let dist x := l2_distance (embedding x) (embedding e) in
  let matching := filter (fun x => String.eqb (category x) c) (rows s) in
  dist e = 0%R
  /\ (exists e0 rest,
        filtered_query c (embedding e) K s = e0 :: rest
        /\ dist e0 = 0%R /\ category e0 = c)
  /\ (List.length (filter (fun x => R_leb (dist x) 0) matching) <= K ->
      In e (filtered_query c (embedding e) K s))
  /\ (Forall (fun x => category x = c -> (0 < dist x)%R) (earlier ++ later) ->
      exists rest, filtered_query c (embedding e) K s = e :: rest).
Proof.
  intros Hrows Hcat HK dist matching.
  assert (dist e = 0%R) as He0 by apply l2_distance_self.
  assert (In e (rows s)) as He.
  { rewrite Hrows. apply in_or_app. right. now left. }
  split; [exact He0 | split; [| split]].
  - destruct (first_result_at_zero c (embedding e) K s e He Hcat HK He0)
      as [e0 [rest [Hres Hzero]]].
    exists e0, rest. split; [exact Hres | split; [exact Hzero |]].
    assert (In e0 (e0 :: rest)) as Hin by now left.
    rewrite <- Hres in Hin. apply in_filtered_query in Hin. tauto.
  - intros Hfew. unfold filtered_query. fold matching.
    apply (leading_rows_kept (fun a b => (dist a <= dist b)%R)
             (fun x => R_leb (dist x) 0)).
    + intros a b Hab Hb. apply R_leb_le in Hb. apply R_leb_le. lra.
    + apply ordered_selected_sorted.
    + rewrite (count_passing_reordered _ _ _ (order_by_perm _ matching)).
      exact Hfew.
    + apply order_by_In. apply filter_In. split; [exact He |].
      rewrite Hcat. apply String.eqb_refl.
    + apply R_leb_le. lra.
  - intros Hothers. apply Forall_app in Hothers.
    destruct Hothers as [Hearlier Hlater].
    destruct K as [| K]; [lia |].
    unfold filtered_query. rewrite Hrows, filter_app. simpl.
    rewrite Hcat, String.eqb_refl. fold dist. rewrite order_by_head.
    + eexists. reflexivity.
    + apply Forall_forall. intros x Hx. apply filter_In in Hx.
      destruct Hx as [Hx Hc]. apply String.eqb_eq in Hc.
      rewrite Forall_forall in Hearlier. specialize (Hearlier x Hx Hc).
      unfold ascending. apply R_leb_gt. lra.
    + apply Forall_forall. intros x _. unfold ascending. apply R_leb_le.
      pose proof (l2_distance_nonneg (embedding x) (embedding e)) as Hpos.
      fold (dist x) in Hpos. lra.
Qed.

(** C4 (as amended), on the table of the two narrative elements: the first
    is the only row at distance 0 from its own embedding, and the query for
    that embedding returns it first. *)
Lemma own_embedding_ranks_first_witness :
  let s := two_flowers in
  let e := set_id violets 1 in
  rows s = [] ++ e :: [set_id roses 2]
  /\ category e = "NarrativeText"%string
  /\ 0 < 5
  /\ Forall (fun x => category x = "NarrativeText"%string ->
                      (0 < l2_distance (embedding x) (embedding e))%R)
       ([] ++ [set_id roses 2])
  /\ exists rest, filtered_query "NarrativeText" (embedding e) 5 s = e :: rest.
Proof.
  intros s e.
  assert (Forall (fun x => category x = "NarrativeText"%string ->
                           (0 < l2_distance (embedding x) (embedding e))%R)
            ([] ++ [set_id roses 2])) as Honly.
  { constructor; [| constructor]. intros _.
    change (embedding (set_id roses 2)) with unit_vector.
    change (embedding e) with zero_vector.
    rewrite l2_distance_unit_zero. lra. }
  split; [reflexivity | split; [reflexivity | split; [lia |]]].
  split; [exact Honly |].
  destruct (own_embedding_ranks_first "NarrativeText" 5 s
              [] [set_id roses 2] e eq_refl eq_refl (Nat.lt_0_succ 4))
    as [_ [_ [_ Hfirst]]].
  exact (Hfirst Honly).
Defined.

(** ** Cell 18: Elements less than a day old *)

Lemma scores_at_least_one_closed (a b : ScoredRow) :
  desc_nulls_first (decay_score a) (decay_score b) = true ->
  scores_at_least_one b = true -> scores_at_least_one a = true.
Proof.
  unfold scores_at_least_one, desc_nulls_first.
  destruct (decay_score a) as [x |], (decay_score b) as [y |];
    try reflexivity; try discriminate.
  rewrite !R_leb_le. lra.
Qed.

(** C9 (as amended). The age is [EXTRACT(DAY FROM (NOW() - date))], the
    whole elapsed days. With a decay rate [λ > 0], every stored Element whose
    date is less than one whole day before now has the exponent 0 and the
    score [exp(0) = 1], whatever its distance to the query vector. This is
    the highest score among the Elements dated at or before now (an Element
    dated after now can score higher), and an Element at least one day old
    at a positive distance scores strictly less. The query returns
    [min(K, rows)] rows; when a fresh Element is stored and [K >= 1] the
    first row is not such an older Element; every fresh Element is returned
    when at most [K] rows have no score or a score of at least 1; in the
    result every fresh Element stands before every such older one, and an
    older one is returned only together with all the fresh ones. *)
Theorem fresh_elements_score_one
  (decay_rate : R) (now : timestamp) (v : vector) (K : nat) (s : Store) :
  (0 < decay_rate)%R ->
  let score := decay_score_of decay_rate now v in
  let result := decayed_query decay_rate now v K s in
  let fresh e := exists d, date e = Some d /\ (0 <= now - d < USECS_PER_DAY)%Z in
  let older e := exists d, date e = Some d /\ (USECS_PER_DAY <= now - d)%Z
                           /\ (0 < l2_distance (embedding e) v)%R in
  let leading :=
    filter scores_at_least_one
      (map (select_scored decay_rate now v) (rows s)) in
  (forall e d, date e = Some d -> (0 <= now - d < USECS_PER_DAY)%Z ->
               extract_day (now - d) = 0%Z)
  /\ (forall e, fresh e -> score e = Some 1%R)
  /\ (forall e d, date e = Some d -> (d <= now)%Z ->
                  exists x, score e = Some x /\ (x <= 1)%R)
  /\ (forall e, older e -> exists x, score e = Some x /\ (x < 1)%R)
  /\ List.length result = Nat.min K (List.length (rows s))
  /\ (forall e, In e (rows s) -> fresh e -> 0 < K ->
        exists first rest,
          result = first :: rest /\ ~ older (row_element first))
  /\ (List.length leading <= K ->
      forall e, In e (rows s) -> fresh e ->
                In (select_scored decay_rate now v e) result)
  /\ (forall i j r r',
        nth_error result i = Some r -> nth_error result j = Some r' ->
        fresh (row_element r) -> older (row_element r') -> i < j)
  /\ (forall r' e,
        In r' result -> older (row_element r') ->
        In e (rows s) -> fresh e ->
        In (select_scored decay_rate now v e) result).
Proof.
  intros Hrate score result fresh older leading.
  assert (forall e, fresh e -> score e = Some 1%R) as Hfresh.
  { intros e [d [Hd Hage]]. unfold score, decay_score_of. rewrite Hd.
    rewrite (extract_day_fresh _ Hage). now rewrite decay_expr_day_zero. }
  assert (forall e, older e -> exists x, score e = Some x /\ (x < 1)%R)
    as Holder.
  { intros e [d [Hd [Hage Hdist]]]. unfold score, decay_score_of. rewrite Hd.
    eexists. split; [reflexivity |].
    apply decay_expr_below_one; [exact Hrate | | exact Hdist].
    now apply extract_day_older. }
  set (ordered := order_by (descending decay_score)
                    (map (select_scored decay_rate now v) (rows s))).
  assert (StronglySorted
            (fun a b => desc_nulls_first (decay_score a) (decay_score b) = true)
            ordered) as Hordered by apply ordered_scored_sorted.
  assert (result = firstn K ordered) as Hres by reflexivity.
  assert (forall e, In e (rows s) ->
                    In (select_scored decay_rate now v e) ordered) as Hstored.
  { intros e He. apply order_by_In. now apply in_map. }
  assert (forall r, In r ordered -> decay_score r = score (row_element r))
    as Hscore.
  { intros r Hr. apply in_ordered in Hr. now destruct Hr as [e [_ ->]]. }
  split; [| split; [| split; [| split; [| split; [| split; [| split; [| split]]]]]]].
  - intros e d _ Hage. now apply extract_day_fresh.
  - exact Hfresh.
  - intros e d Hd Hpast. unfold score, decay_score_of. rewrite Hd.
    eexists. split; [reflexivity |].
    apply decay_expr_at_most_one;
      [exact Hrate | apply extract_day_nonneg; lia | apply l2_distance_nonneg].
  - exact Holder.
  - rewrite Hres. unfold ordered.
    now rewrite length_firstn, order_by_length, length_map.
  - intros e He Hnew HK. destruct K as [| K]; [lia |].
    pose proof (Hstored e He) as Hin. rewrite Hres.
    destruct ordered as [| first rest]; [contradiction |].
    exists first, (firstn K rest). split; [reflexivity |].
    intros Hold. destruct (Holder _ Hold) as [x [Hx Hlt]].
    rewrite <- (Hscore first (or_introl eq_refl)) in Hx.
    apply StronglySorted_inv in Hordered. destruct Hordered as [_ Hall].
    destruct Hin as [Heq | Hin].
    + rewrite Heq in Hx. simpl in Hx. fold (score e) in Hx.
      rewrite (Hfresh e Hnew) in Hx. injection Hx as Hx. lra.
    + rewrite Forall_forall in Hall. specialize (Hall _ Hin).
      simpl in Hall. fold (score e) in Hall.
      rewrite Hx, (Hfresh e Hnew) in Hall. apply R_leb_le in Hall. lra.
  - intros Hfew e He Hnew. rewrite Hres.
    apply (leading_rows_kept
             (fun a b => desc_nulls_first (decay_score a) (decay_score b) = true)
             scores_at_least_one scores_at_least_one_closed).
    + exact Hordered.
    + unfold ordered.
      rewrite (count_passing_reordered _ _ _ (order_by_perm _ _)).
      exact Hfew.
    + now apply Hstored.
    + unfold scores_at_least_one. simpl. fold (score e).
      rewrite (Hfresh e Hnew). apply R_leb_le. lra.
  - intros i j r r' Hi Hj Hr Hr'.
    destruct (Holder _ Hr') as [x [Hx Hlt]].
    apply (decayed_rank_by_score decay_rate now v K s i j r r' 1%R x Hi Hj).
    + pose proof (in_decayed_query decay_rate now v K s r (nth_error_In _ _ Hi))
        as [_ [_ Hsr]].
      rewrite Hsr. now apply Hfresh.
    + pose proof (in_decayed_query decay_rate now v K s r' (nth_error_In _ _ Hj))
        as [_ [_ Hsr']].
      now rewrite Hsr'.
    + exact Hlt.
  - intros r' e Hr' Hold He Hnew.
    pose proof (in_decayed_query decay_rate now v K s r' Hr') as [_ [_ Hsr']].
    destruct (Holder _ Hold) as [x [Hx Hlt]].
    fold score in Hsr'. rewrite Hx in Hsr'.
    pose proof (Hstored e He) as Hin.
    rewrite <- (firstn_skipn K ordered) in Hin.
    apply in_app_or in Hin. destruct Hin as [Hin | Hin]; [exact Hin |].
    exfalso.
    pose proof (sorted_firstn_skipn _ K ordered Hordered
                  r' (select_scored decay_rate now v e) Hr' Hin) as H.
    simpl in H. fold (score e) in H. rewrite Hsr', (Hfresh _ Hnew) in H.
    apply R_leb_le in H. lra.
Qed.

(** C9 (as amended), on the table of the old and the fresh element, both at
    distance 1: the fresh one scores 1, the old one less, and the query with
    limit 1 returns one row. *)
Lemma fresh_elements_score_one_witness :
  (0 < decay_rate)%R
  /\ decay_score_of decay_rate sample_now zero_vector (set_id fresh_roses 2)
     = Some 1%R
  /\ (exists x,
        decay_score_of decay_rate sample_now zero_vector (set_id roses 1) = Some x
        /\ (x < 1)%R)
  /\ List.length (decayed_query decay_rate sample_now zero_vector 1 old_and_fresh)
     = Nat.min 1 (List.length (rows old_and_fresh)).
Proof.
  split; [apply decay_rate_positive |].
  destruct (fresh_elements_score_one decay_rate sample_now zero_vector 1
              old_and_fresh decay_rate_positive)
    as [_ [Hfresh [_ [Holder [Hlength _]]]]].
  split; [| split; [| exact Hlength]].
  - apply Hfresh. exists (sample_now - 3600000000)%Z.
    split; [reflexivity |]. unfold sample_now, USECS_PER_DAY. lia.
  - apply Holder. exists (sample_now - USECS_PER_DAY)%Z.
    split; [reflexivity | split].
    + unfold sample_now, USECS_PER_DAY. lia.
    + change (embedding (set_id roses 1)) with unit_vector.
      rewrite l2_distance_unit_zero. lra.
Defined.

Lemma score_fresh_roses (key : Z) :
  decay_score_of decay_rate sample_now zero_vector (set_id fresh_roses key)
  = Some 1%R.
Proof.
  unfold decay_score_of.
  change (date (set_id fresh_roses key))
    with (Some (sample_now - 3600000000)%Z).
  cbv beta iota.
  replace (extract_day (sample_now - (sample_now - 3600000000))) with 0%Z
    by reflexivity.
  now rewrite decay_expr_day_zero.
Qed.

Lemma score_future_roses (key : Z) :
  decay_score_of decay_rate sample_now zero_vector (set_id future_roses key)
  = Some (decay_expr decay_rate (-1) 1).
Proof.
  unfold decay_score_of.
  change (date (set_id future_roses key))
    with (Some (sample_now + USECS_PER_DAY)%Z).
  change (embedding (set_id future_roses key)) with unit_vector.
  cbv beta iota.
  replace (extract_day (sample_now - (sample_now + USECS_PER_DAY)))
    with (-1)%Z by reflexivity.
  now rewrite l2_distance_unit_zero.
Qed.

(** C9, refuted as stated. A table holding an Element sent an hour ago and
    one dated exactly one day after now, both at distance 1 from the query
    vector: the fresh one scores 1, the other scores [exp(λ) > 1], so 1 is
    not the maximum possible score, and the query with limit 1 returns the
    future-dated Element and not the fresh one. *)
Lemma future_dated_element_outscores_fresh :
  (0 < decay_rate)%R
  /\ (0 <= sample_now - (sample_now - 3600000000) < USECS_PER_DAY)%Z
  /\ decay_score_of decay_rate sample_now zero_vector (set_id fresh_roses 1)
     = Some 1%R
  /\ (1 < decay_expr decay_rate (-1) 1)%R
  /\ decayed_query decay_rate sample_now zero_vector 1 fresh_and_future =
       [ {| row_element := set_id future_roses 2;
            row_text := "Roses are red";
            decay_score := Some (decay_expr decay_rate (-1) 1) |} ].
Proof.
  assert (1 < decay_expr decay_rate (-1) 1)%R as Habove.
  { apply decay_expr_above_one; [apply decay_rate_positive | lia | lra]. }
  split; [apply decay_rate_positive |].
  split; [unfold sample_now, USECS_PER_DAY; lia |].
  split; [apply score_fresh_roses | split; [exact Habove |]].
  unfold decayed_query.
  change (rows fresh_and_future)
    with [set_id fresh_roses 1; set_id future_roses 2].
  cbn [map order_by fold_right insert_sorted].
  assert (descending decay_score
            (select_scored decay_rate sample_now zero_vector
               (set_id fresh_roses 1))
            (select_scored decay_rate sample_now zero_vector
               (set_id future_roses 2))
          = false) as Hlater.
  { unfold descending. cbn [decay_score select_scored].
    rewrite score_fresh_roses, score_future_roses. cbn [desc_nulls_first].
    apply R_leb_gt. exact Habove. }
  rewrite Hlater. cbn [firstn]. unfold select_scored.
  now rewrite score_future_roses.
Qed.
